(** * pure-simplify: discovery, pairing and the batch orchestration loop

    A shallow embedding of the two orchestrator scripts of the repository
    (the progress-bar variant with its incrementally persisted report, and
    the legacy [src/index.js]) together with the properties of the
    specification that concern them.

    Conventions.
    - JavaScript strings are [string]; the only string operations the
      scripts use ([endsWith], [replace] with a string pattern, a
      character-class filter, concatenation) act on them position by
      position, so the byte view and the UTF-16 view agree on the results
      that matter here.
    - [null] and [undefined] are [None]; truthiness tests are written out.
    - Node's [path.join] / [path.dirname] / [fs.existsSync], [JSON.parse]
      and the remote review service are environment: they are Section
      variables, and the theorems hold for every behaviour of them.
      Where the value of a path matters, [Posix] gives [path.join] and
      [path.dirname] as Node defines them on POSIX.
    - Mutable accumulators ([filesList], [processedFiles]) are threaded
      explicitly; the requests sent, the backoff delays and the report
      snapshots are appended to a chronological log.  Console output and
      the progress display are left out.
    - [main] is modelled from the call of [findSpecFilesAndRelated] on,
      for a start directory that exists and can be listed. *)

From Stdlib Require Import ZArith Lia Ascii.
From stdpp Require Import base strings list gmap.

Set Default Proof Using "Type".
Local Set Warnings "-register-all".

(** ** JavaScript string primitives *)

Module JsString.

(** The line terminator character, U+000A. *)
Definition LF : string :=
  String (Ascii false true false true false false false false) EmptyString.

(** [skip n s] is [s.substring(n)]. *)
Fixpoint skip (n : nat) (s : string) : string :=
  match n, s with
  | O, _ => s
  | S _, EmptyString => EmptyString
  | S n', String _ s' => skip n' s'
  end.

(** [take n s] is [s.substring(0, n)]. *)
Fixpoint take (n : nat) (s : string) : string :=
  match n, s with
  | O, _ => EmptyString
  | S _, EmptyString => EmptyString
  | S n', String c s' => String c (take n' s')
  end.

(** [s.startsWith(pat)] *)
Fixpoint startsWith (s pat : string) {struct pat} : bool :=
  match pat with
  | EmptyString => true
  | String p pat' =>
      match s with
      | EmptyString => false
      | String c s' => Ascii.eqb c p && startsWith s' pat'
      end
  end.

(** [s.endsWith(suf)]: the last [suf.length] code units of [s] are [suf];
    false when [suf] is longer than [s]. *)
Definition endsWith (s suf : string) : bool :=
  (String.length suf <=? String.length s)%nat
  && String.eqb (skip (String.length s - String.length suf) s) suf.

(** [s.replace(pat, rep)] with a string pattern: only the first
    occurrence of [pat] (scanning from the left) is replaced; [s] is
    returned unchanged when [pat] does not occur.  ([rep] holds no [$]
    in the scripts, so no replacement pattern is expanded.) *)
Fixpoint replace (s pat rep : string) : string :=
  if startsWith s pat then rep +:+ skip (String.length pat) s
  else match s with
       | EmptyString => EmptyString
       | String c s' => String c (replace s' pat rep)
       end.

(** Number of positions of [s] at which [pat] occurs. *)
Fixpoint occurrences (pat s : string) : nat :=
  (if startsWith s pat then 1 else 0) +
  match s with
  | EmptyString => 0
  | String _ s' => occurrences pat s'
  end.

(** The proper suffixes of a string, longest first. *)
Fixpoint properSuffixes (s : string) : list string :=
  match s with
  | EmptyString => []
  | String _ s' => s' :: properSuffixes s'
  end.

(** The character class [[\x20-\x7E]]. *)
Definition printable (c : ascii) : bool :=
  let n := nat_of_ascii c in (32 <=? n)%nat && (n <=? 126)%nat.

(** [s.replace(/[^\x20-\x7E]/g, '')] *)
Fixpoint sanitize (s : string) : string :=
  match s with
  | EmptyString => EmptyString
  | String c s' => if printable c then String c (sanitize s') else sanitize s'
  end.

(** Truthiness of a string: every string but the empty one. *)
Definition truthy (s : string) : bool := negb (String.eqb s "").

(** Truthiness of a value that is a string or [null]. *)
Definition truthy_opt (o : option string) : bool :=
  match o with
  | Some s => truthy s
  | None => false
  end.

End JsString.

Import JsString.

(** ** Discovery and pairing: [findSpecFilesAndRelated] *)

(** The entries of [filesList]. *)
Record SpecRecord := mkSpecRecord {
  specFileName : string;
  specFilePath : string;
  relatedFileName : option string;
  relatedFilePath : option string;
}.

(** A directory tree as [fs.readdirSync] and [fs.statSync] show it: a
    directory lists named items, each a regular file or a directory. *)
Inductive Dirent : Type :=
| File : Dirent
| Directory (items : list (string * Dirent)) : Dirent.

(** The test on [item] that selects specification files. *)
Definition isSpecName (item : string) : bool :=
  endsWith item ".spec.js" || endsWith item ".spec.ts" || endsWith item ".spec.vue".

(** [item.replace('.spec.', '.')] *)
Definition deriveRelatedName (item : string) : string :=
  replace item ".spec." ".".

Section Discovery.

Variable path_join : string → string → string.
Variable path_dirname : string → string.
Variable existsSync : string → bool.

(** The resolution of the related file for [item] found in [dir]:
    the value of [relatedFilePath] when the record is pushed. *)
Definition resolveRelated (dir item : string) : option string :=
  let relatedFileName := deriveRelatedName item in
  let relatedFilePath := path_join dir relatedFileName in
  if existsSync relatedFilePath then Some relatedFilePath
  else
    let parentDir := path_dirname dir in
    let relatedFilePath := path_join parentDir relatedFileName in
    if negb (existsSync relatedFilePath) then None
    else Some relatedFilePath.

(** The object pushed on [filesList]. *)
Definition specRecord (dir item : string) : SpecRecord :=
  let relatedFilePath := resolveRelated dir item in
  {| specFileName := item;
     specFilePath := path_join dir item;
     relatedFileName :=
       if truthy_opt relatedFilePath then Some (deriveRelatedName item) else None;
     relatedFilePath := relatedFilePath |}.

(** The callback of [items.forEach]: [item] is an entry of [dir], [d] is
    what [fs.statSync(fullPath)] reports; a directory is entered by the
    recursive call [findSpecFilesAndRelated(fullPath, filesList)], which
    runs the callback over its own items in order. *)
Fixpoint visitItem (dir item : string) (d : Dirent)
    (filesList : list SpecRecord) : list SpecRecord :=
  let fullPath := path_join dir item in
  match d with
  | Directory items =>
      fold_left (fun acc (e : string * Dirent) => visitItem fullPath e.1 e.2 acc)
                items filesList
  | File =>
      if isSpecName item then filesList ++ [specRecord dir item]
      else filesList
  end.

(** [findSpecFilesAndRelated(dir, filesList)], where [items] is the
    listing of [dir]. *)
Definition findSpecFilesAndRelated (dir : string) (items : list (string * Dirent))
    (filesList : list SpecRecord) : list SpecRecord :=
  fold_left (fun acc (e : string * Dirent) => visitItem dir e.1 e.2 acc)
            items filesList.

(** [FileIn dir items d i]: the tree [items] rooted at path [dir] holds a
    regular file named [i] in the directory reached as path [d]. *)
Inductive FileIn : string → list (string * Dirent) → string → string → Prop :=
| FileIn_here dir items i :
    (i, File) ∈ items → FileIn dir items dir i
| FileIn_sub dir items sub subitems d i :
    (sub, Directory subitems) ∈ items →
    FileIn (path_join dir sub) subitems d i →
    FileIn dir items d i.

End Discovery.

(** ** Values shared by the two orchestrators *)

(** The result of [JSON.parse].  Only the zero test is ever applied to a
    number, so its payload is kept as an integer.  An object lists its own
    properties, each name once. *)
Inductive Json : Type :=
| JNull : Json
| JBool (b : bool) : Json
| JNum (n : Z) : Json
| JStr (s : string) : Json
| JArr (elems : list Json) : Json
| JObj (props : list (string * Json)) : Json.

(** An evaluation either completes with a value or throws an error that
    carries a message. *)
Inductive Completion (A : Type) : Type :=
| Normal (a : A) : Completion A
| Throw (message : string) : Completion A.
Arguments Normal {A} a.
Arguments Throw {A} message.

(** Own property lookup in the property list of an object. *)
Fixpoint ownProperty (k : string) (props : list (string * Json)) : option Json :=
  match props with
  | [] => None
  | (k', v) :: rest => if String.eqb k' k then Some v else ownProperty k rest
  end.

(** [parsedResponse.newSpecContent]: a [TypeError] on [null], [undefined]
    (here [None]) on primitives, arrays and objects without the property. *)
Definition newSpecContentOf (parsedResponse : Json) : Completion (option Json) :=
  match parsedResponse with
  | JNull => Throw "Cannot read properties of null (reading 'newSpecContent')"
  | JObj props => Normal (ownProperty "newSpecContent" props)
  | _ => Normal None
  end.

(** Truthiness of a JSON value or [undefined]. *)
Definition truthyValue (v : option Json) : bool :=
  match v with
  | None => false
  | Some JNull => false
  | Some (JBool b) => b
  | Some (JNum n) => negb (n =? 0)%Z
  | Some (JStr s) => truthy s
  | Some (JArr _) => true
  | Some (JObj _) => true
  end.

(** A regular file on disk. *)
Record FileData := mkFileData {
  content : string;
  writable : bool;
}.

(** [fs.readFileSync(p, 'utf8')] *)
Definition readFileSync (disk : gmap string FileData) (p : string) : Completion string :=
  match disk !! p with
  | Some f => Normal (content f)
  | None => Throw ("ENOENT: no such file or directory, open '" +:+ p +:+ "'")
  end.

(** [fs.writeFileSync(p, data, 'utf8')] *)
Definition writeFileSync (disk : gmap string FileData) (p data : string)
    : Completion (gmap string FileData) :=
  match disk !! p with
  | Some f =>
      if writable f then Normal (<[p := mkFileData data true]> disk)
      else Throw ("EACCES: permission denied, open '" +:+ p +:+ "'")
  | None => Normal (<[p := mkFileData data true]> disk)
  end.

(** An entry of [processedFiles.error]. *)
Record ErrorEntry := mkErrorEntry {
  file : string;
  error : string;
}.

Definition maxRetries : nat := 3.

(** [`Failed to receive response after ${maxRetries} attempts`] *)
Definition exhaustedMessage : string := "Failed to receive response after 3 attempts".

(** The three terminal outcomes of the specification. *)
Inductive ProcessingOutcome : Type :=
| Success : ProcessingOutcome
| Skipped : ProcessingOutcome
| Failed (description : string) : ProcessingOutcome.

(** ** The orchestrator with the persisted report *)

Module Simplify.

(** The accumulator [processedFiles]. *)
Record ProcessedFiles := mkProcessedFiles {
  success : list string;
  error : list ErrorEntry;
  skipped : list string;
}.

(** The object serialized by [updateReport]; [skippedCount] is its field
    [skipped], renamed apart from the list of the accumulator. *)
Record Report := mkReport {
  totalProcessed : Z;
  successfullyProcessed : Z;
  errors : Z;
  skippedCount : Z;
  successfulFiles : list string;
  errorFiles : list ErrorEntry;
  skippedFiles : list string;
}.

(** What the run does to the outside, in order. *)
Inductive Event : Type :=
| Request (specContent : string) (relatedContent : option string) : Event
| Delay (ms : Z) : Event
| ReportWritten (report : Report) : Event.

Record Machine := mkMachine {
  disk : gmap string FileData;
  requests : nat;
  log : list Event;
  processedFiles : ProcessedFiles;
}.

Definition emit (e : Event) (m : Machine) : Machine :=
  mkMachine (disk m) (requests m) (log m ++ [e]) (processedFiles m).

Definition setDisk (d : gmap string FileData) (m : Machine) : Machine :=
  mkMachine d (requests m) (log m) (processedFiles m).

(** A request has gone out to the review service. *)
Definition noteRequest (specContent : string) (relatedContent : option string)
    (m : Machine) : Machine :=
  emit (Request specContent relatedContent)
       (mkMachine (disk m) (S (requests m)) (log m) (processedFiles m)).

Definition setProcessed (p : ProcessedFiles) (m : Machine) : Machine :=
  mkMachine (disk m) (requests m) (log m) p.

(** [processedFiles.success.push(path)] *)
Definition pushSuccess (path : string) (m : Machine) : Machine :=
  let p := processedFiles m in
  setProcessed (mkProcessedFiles (success p ++ [path]) (error p) (skipped p)) m.

(** [processedFiles.skipped.push(path)] *)
Definition pushSkipped (path : string) (m : Machine) : Machine :=
  let p := processedFiles m in
  setProcessed (mkProcessedFiles (success p) (error p) (skipped p ++ [path])) m.

(** [processedFiles.error.push({ file, error })] *)
Definition pushError (e : ErrorEntry) (m : Machine) : Machine :=
  let p := processedFiles m in
  setProcessed (mkProcessedFiles (success p) (error p ++ [e]) (skipped p)) m.

(** The report object built from the accumulator. *)
Definition buildReport (p : ProcessedFiles) : Report :=
  {| totalProcessed :=
       Z.of_nat (length (success p)) + Z.of_nat (length (error p))
       + Z.of_nat (length (skipped p));
     successfullyProcessed := Z.of_nat (length (success p));
     errors := Z.of_nat (length (error p));
     skippedCount := Z.of_nat (length (skipped p));
     successfulFiles := success p;
     errorFiles := error p;
     skippedFiles := skipped p |}.

(** The reading phase at the head of the [try] block: the specification
    file is read and sanitized, then the related file if the record has
    one.  The first failing read throws. *)
Definition readContents (specFile : SpecRecord) (d : gmap string FileData)
    : Completion (string * option string) :=
  match readFileSync d (specFilePath specFile) with
  | Throw message => Throw message
  | Normal specContent =>
      let sanitizedSpecContent := sanitize specContent in
      match relatedFilePath specFile with
      | Some p =>
          if truthy p then
            match readFileSync d p with
            | Normal relatedContent =>
                Normal (sanitizedSpecContent, Some (sanitize relatedContent))
            | Throw message => Throw message
            end
          else Normal (sanitizedSpecContent, None)
      | None => Normal (sanitizedSpecContent, None)
      end
  end.

(** [updateReport()]: the snapshot handed to [fs.promises.writeFile]; a
    failure of that write is logged and swallowed. *)
Definition updateReport (m : Machine) : Machine :=
  emit (ReportWritten (buildReport (processedFiles m))) m.

Section Orchestrator.

(** [JSON.parse]: [None] when it throws a [SyntaxError]. *)
Variable JSON_parse : string → option Json.

(** [sendToClaudeForReview(specContent, relatedContent)] as issued for
    the [n]-th time in the run (counting from 0): the text of the
    reply, or [null] on a transport failure or an unexpected reply
    format.  It never throws. *)
Variable sendToClaudeForReview : nat → string → option string → option string.

(** One pass through the body of the [while] loop up to the test
    [if (!claudeResponse)]: the value of [claudeResponse] at that test
    and the machine. *)
Definition attempt (specFile : SpecRecord)
    (sanitizedSpecContent : string) (sanitizedRelatedContent : option string)
    (m : Machine) : option string * Machine :=
  let claudeResponse :=
    sendToClaudeForReview (requests m) sanitizedSpecContent sanitizedRelatedContent in
  let m := noteRequest sanitizedSpecContent sanitizedRelatedContent m in
  match claudeResponse with
  | None => (None, m)
  | Some text =>
      if truthy text then
        match JSON_parse text with
        | None => (None, m)
        | Some parsedResponse =>
            match newSpecContentOf parsedResponse with
            | Throw _ => (None, m)
            | Normal newSpecContent =>
                if truthyValue newSpecContent then
                  match newSpecContent with
                  | Some (JStr s) =>
                      let newContent := if endsWith s LF then s else s +:+ LF in
                      match writeFileSync (disk m) (specFilePath specFile) newContent with
                      | Normal disk' =>
                          (Some text,
                           updateReport
                             (pushSuccess (specFilePath specFile) (setDisk disk' m)))
                      | Throw _ => (None, m)
                      end
                  | _ => (None, m)
                  end
                else
                  (Some text,
                   updateReport (pushSkipped (specFilePath specFile) m))
            end
        end
      else (Some text, m)
  end.

(** The [while (retries < maxRetries && !claudeResponse)] loop; the
    result is [(retries, claudeResponse, machine)] at loop exit, or
    [None] if [fuel] iterations did not reach the exit. *)
Fixpoint whileLoop (fuel : nat) (specFile : SpecRecord)
    (sanitizedSpecContent : string) (sanitizedRelatedContent : option string)
    (retries : nat) (claudeResponse : option string) (m : Machine)
    : option (nat * option string * Machine) :=
  if (retries <? maxRetries)%nat && negb (truthy_opt claudeResponse) then
    match fuel with
    | O => None
    | S fuel' =>
        let '(claudeResponse, m) :=
          attempt specFile sanitizedSpecContent sanitizedRelatedContent m in
        if negb (truthy_opt claudeResponse) then
          let retries := S retries in
          if (retries <? maxRetries)%nat then
            whileLoop fuel' specFile sanitizedSpecContent sanitizedRelatedContent
              retries claudeResponse
              (emit (Delay (1000 * Z.of_nat retries)) m)
          else
            whileLoop fuel' specFile sanitizedSpecContent sanitizedRelatedContent
              retries claudeResponse
              (updateReport
                 (pushError (mkErrorEntry (specFileName specFile) exhaustedMessage) m))
        else
          whileLoop fuel' specFile sanitizedSpecContent sanitizedRelatedContent
            retries claudeResponse m
    end
  else Some (retries, claudeResponse, m).

(** The handler of the per-record [catch (error)]. *)
Definition catchRecord (specFile : SpecRecord) (message : string) (m : Machine)
    : Machine :=
  updateReport (pushError (mkErrorEntry (specFileName specFile) message) m).

(** The body of the [for] loop for one record: the reading phase, the
    retry loop, and the test that follows the loop. *)
Definition processSpecFile (specFile : SpecRecord) (m : Machine) : option Machine :=
  match readContents specFile (disk m) with
  | Throw message => Some (catchRecord specFile message m)
  | Normal (sanitizedSpecContent, sanitizedRelatedContent) =>
      match whileLoop maxRetries specFile sanitizedSpecContent
              sanitizedRelatedContent 0 None m with
      | None => None
      | Some (_, claudeResponse, m) =>
          if negb (truthy_opt claudeResponse) then
            Some (updateReport
                    (pushError
                       (mkErrorEntry (specFileName specFile) exhaustedMessage) m))
          else Some m
      end
  end.

(** [for (let i = 0; i < result.length; i++)] *)
Fixpoint forLoop (result : list SpecRecord) (m : Machine) : option Machine :=
  match result with
  | [] => Some m
  | specFile :: rest =>
      match processSpecFile specFile m with
      | Some m' => forLoop rest m'
      | None => None
      end
  end.

Definition initialMachine (d : gmap string FileData) : Machine :=
  mkMachine d 0 [] (mkProcessedFiles [] [] []).

Variable path_join : string → string → string.
Variable path_dirname : string → string.
Variable existsSync : string → bool.

(** [main], from the discovery call on: [items] is the listing of the
    existing directory [startDir]. *)
Definition main (startDir : string) (items : list (string * Dirent))
    (d : gmap string FileData) : option Machine :=
  let result :=
    findSpecFilesAndRelated path_join path_dirname existsSync startDir items [] in
  forLoop result (initialMachine d).

End Orchestrator.

End Simplify.

(** ** The legacy orchestrator of [src/index.js] *)

Module Legacy.

(** The accumulator [processedFiles]: there is no [skipped] list. *)
Record ProcessedFiles := mkProcessedFiles {
  success : list string;
  error : list ErrorEntry;
}.

(** The report object written once, after the loop. *)
Record Report := mkReport {
  totalProcessed : Z;
  successfullyProcessed : Z;
  errors : Z;
  successfulFiles : list string;
  errorFiles : list ErrorEntry;
}.

Inductive Event : Type :=
| Request (specContent : string) (relatedContent : option string) : Event
| Delay (ms : Z) : Event
| ReportWritten (report : Report) : Event.

Record Machine := mkMachine {
  disk : gmap string FileData;
  requests : nat;
  log : list Event;
  processedFiles : ProcessedFiles;
}.

Definition emit (e : Event) (m : Machine) : Machine :=
  mkMachine (disk m) (requests m) (log m ++ [e]) (processedFiles m).

Definition setDisk (d : gmap string FileData) (m : Machine) : Machine :=
  mkMachine d (requests m) (log m) (processedFiles m).

(** A request has gone out to the review service. *)
Definition noteRequest (specContent : string) (relatedContent : option string)
    (m : Machine) : Machine :=
  emit (Request specContent relatedContent)
       (mkMachine (disk m) (S (requests m)) (log m) (processedFiles m)).

Definition pushSuccess (path : string) (m : Machine) : Machine :=
  let p := processedFiles m in
  mkMachine (disk m) (requests m) (log m)
            (mkProcessedFiles (success p ++ [path]) (error p)).

Definition pushError (e : ErrorEntry) (m : Machine) : Machine :=
  let p := processedFiles m in
  mkMachine (disk m) (requests m) (log m)
            (mkProcessedFiles (success p) (error p ++ [e])).

Definition buildReport (p : ProcessedFiles) : Report :=
  {| totalProcessed := Z.of_nat (length (success p)) + Z.of_nat (length (error p));
     successfullyProcessed := Z.of_nat (length (success p));
     errors := Z.of_nat (length (error p));
     successfulFiles := success p;
     errorFiles := error p |}.

(** The [TypeError] raised by an assignment to a [const] binding. *)
Definition constAssignmentMessage : string := "Assignment to constant variable.".

(** The reading phase at the head of the [try] block.
    [sanitizedRelatedContent] is declared [const] and initialised to
    [null]; in the branch for a paired record the related file is read,
    the right-hand side of the assignment is evaluated, and the
    assignment to the [const] binding throws.  The retry loop is only
    reached with [sanitizedRelatedContent] still [null]. *)
Definition readContents (specFile : SpecRecord) (d : gmap string FileData)
    : Completion (string * option string) :=
  match readFileSync d (specFilePath specFile) with
  | Throw message => Throw message
  | Normal specContent =>
      let sanitizedSpecContent := sanitize specContent in
      let sanitizedRelatedContent : option string := None in
      match relatedFilePath specFile with
      | Some p =>
          if truthy p then
            match readFileSync d p with
            | Normal relatedContent => Throw constAssignmentMessage
            | Throw message => Throw message
            end
          else Normal (sanitizedSpecContent, sanitizedRelatedContent)
      | None => Normal (sanitizedSpecContent, sanitizedRelatedContent)
      end
  end.

Section Orchestrator.

Variable JSON_parse : string → option Json.
Variable sendToClaudeForReview : nat → string → option string → option string.

(** One pass through the body of the [while] loop up to the test
    [if (!claudeResponse)].  The content is written as received;
    [fs.writeFileSync] rejects data that is not a string with a
    [TypeError], which the inner [catch] turns into a retry. *)
Definition attempt (specFile : SpecRecord)
    (sanitizedSpecContent : string) (sanitizedRelatedContent : option string)
    (m : Machine) : option string * Machine :=
  let claudeResponse :=
    sendToClaudeForReview (requests m) sanitizedSpecContent sanitizedRelatedContent in
  let m := noteRequest sanitizedSpecContent sanitizedRelatedContent m in
  match claudeResponse with
  | None => (None, m)
  | Some text =>
      if truthy text then
        match JSON_parse text with
        | None => (None, m)
        | Some parsedResponse =>
            match newSpecContentOf parsedResponse with
            | Throw _ => (None, m)
            | Normal newSpecContent =>
                if truthyValue newSpecContent then
                  match newSpecContent with
                  | Some (JStr s) =>
                      match writeFileSync (disk m) (specFilePath specFile) s with
                      | Normal disk' =>
                          (Some text, pushSuccess (specFilePath specFile) (setDisk disk' m))
                      | Throw _ => (None, m)
                      end
                  | _ => (None, m)
                  end
                else (Some text, m)
            end
        end
      else (Some text, m)
  end.

Fixpoint whileLoop (fuel : nat) (specFile : SpecRecord)
    (sanitizedSpecContent : string) (sanitizedRelatedContent : option string)
    (retries : nat) (claudeResponse : option string) (m : Machine)
    : option (nat * option string * Machine) :=
  if (retries <? maxRetries)%nat && negb (truthy_opt claudeResponse) then
    match fuel with
    | O => None
    | S fuel' =>
        let '(claudeResponse, m) :=
          attempt specFile sanitizedSpecContent sanitizedRelatedContent m in
        if negb (truthy_opt claudeResponse) then
          let retries := S retries in
          if (retries <? maxRetries)%nat then
            whileLoop fuel' specFile sanitizedSpecContent sanitizedRelatedContent
              retries claudeResponse
              (emit (Delay (1000 * Z.of_nat retries)) m)
          else
            whileLoop fuel' specFile sanitizedSpecContent sanitizedRelatedContent
              retries claudeResponse
              (pushError (mkErrorEntry (specFileName specFile) exhaustedMessage) m)
        else
          whileLoop fuel' specFile sanitizedSpecContent sanitizedRelatedContent
            retries claudeResponse m
    end
  else Some (retries, claudeResponse, m).

(** The handler of the per-record [catch (error)]. *)
Definition catchRecord (specFile : SpecRecord) (message : string) (m : Machine)
    : Machine :=
  pushError (mkErrorEntry (specFileName specFile) message) m.

(** The body of the [for] loop for one record: the reading phase, the
    retry loop, and the test that follows the loop. *)
Definition processSpecFile (specFile : SpecRecord) (m : Machine) : option Machine :=
  match readContents specFile (disk m) with
  | Throw message => Some (catchRecord specFile message m)
  | Normal (sanitizedSpecContent, sanitizedRelatedContent) =>
      match whileLoop maxRetries specFile sanitizedSpecContent
              sanitizedRelatedContent 0 None m with
      | None => None
      | Some (_, claudeResponse, m) =>
          if negb (truthy_opt claudeResponse) then
            Some (pushError
                    (mkErrorEntry (specFileName specFile) exhaustedMessage) m)
          else Some m
      end
  end.

Fixpoint forLoop (result : list SpecRecord) (m : Machine) : option Machine :=
  match result with
  | [] => Some m
  | specFile :: rest =>
      match processSpecFile specFile m with
      | Some m' => forLoop rest m'
      | None => None
      end
  end.

Definition initialMachine (d : gmap string FileData) : Machine :=
  mkMachine d 0 [] (mkProcessedFiles [] []).

Variable path_join : string → string → string.
Variable path_dirname : string → string.
Variable existsSync : string → bool.

(** [main], from the discovery call on; the report is written once,
    after the loop. *)
Definition main (startDir : string) (items : list (string * Dirent))
    (d : gmap string FileData) : option Machine :=
  let result :=
    findSpecFilesAndRelated path_join path_dirname existsSync startDir items [] in
  match forLoop result (initialMachine d) with
  | Some m => Some (emit (ReportWritten (buildReport (processedFiles m))) m)
  | None => None
  end.

End Orchestrator.

End Legacy.

(** ** Vocabulary of the properties *)

(** A text ends with exactly one line terminator. *)
Definition exactlyOneTrailingLF (s : string) : Prop :=
  endsWith s LF = true ∧ endsWith s (LF +:+ LF) = false.

(** A review attempt fails: no reply text came back (transport failure,
    unexpected reply format) or [JSON.parse] rejects the text. *)
Definition reviewFails (JSON_parse : string → option Json) (reply : option string)
    : bool :=
  match reply with
  | None => true
  | Some text =>
      negb (truthy text)
      || match JSON_parse text with
         | None => true
         | Some _ => false
         end
  end.

(** The reply declines to return content: it parses as one JSON object
    whose [newSpecContent] is absent or the empty string. *)
Definition declinesContent (JSON_parse : string → option Json) (reply : option string)
    : bool :=
  match reply with
  | None => false
  | Some text =>
      truthy text
      && match JSON_parse text with
         | Some (JObj props) =>
             match ownProperty "newSpecContent" props with
             | None => true
             | Some (JStr s) => negb (truthy s)
             | Some _ => false
             end
         | _ => false
         end
  end.

(** The four counts of a report agree and are non-negative. *)
Definition reportConsistent (r : Simplify.Report) : Prop :=
  (Simplify.totalProcessed r
   = Simplify.successfullyProcessed r + Simplify.skippedCount r + Simplify.errors r)%Z
  ∧ (0 ≤ Simplify.totalProcessed r)%Z
  ∧ (0 ≤ Simplify.successfullyProcessed r)%Z
  ∧ (0 ≤ Simplify.skippedCount r)%Z
  ∧ (0 ≤ Simplify.errors r)%Z.

(** All four counts of a report are zero. *)
Definition reportAllZero (r : Simplify.Report) : Prop :=
  Simplify.totalProcessed r = 0%Z ∧ Simplify.successfullyProcessed r = 0%Z
  ∧ Simplify.skippedCount r = 0%Z ∧ Simplify.errors r = 0%Z.

(** The snapshots written during a run, oldest first. *)
Fixpoint reports (l : list Simplify.Event) : list Simplify.Report :=
  match l with
  | [] => []
  | Simplify.ReportWritten r :: rest => r :: reports rest
  | _ :: rest => reports rest
  end.

(** The backoff delays of a run in milliseconds, oldest first. *)
Fixpoint delays (l : list Simplify.Event) : list Z :=
  match l with
  | [] => []
  | Simplify.Delay ms :: rest => ms :: delays rest
  | _ :: rest => delays rest
  end.

(** The number of entries a step added to the three lists of
    [processedFiles]. *)
Definition entriesAdded (before after : Simplify.ProcessedFiles) : Z :=
  (Z.of_nat (length (Simplify.success after)) - Z.of_nat (length (Simplify.success before))
   + (Z.of_nat (length (Simplify.skipped after)) - Z.of_nat (length (Simplify.skipped before)))
   + (Z.of_nat (length (Simplify.error after)) - Z.of_nat (length (Simplify.error before))))%Z.

(** The base interval of the backoff, in milliseconds. *)
Definition baseInterval : Z := 1000.

(** What the [k]-th failed attempt of a record leaves in the log: the
    request, then the backoff delay unless the retry budget is spent. *)
Definition failedAttempt (specContent : string) (relatedContent : option string)
    (k : nat) : list Simplify.Event :=
  Simplify.Request specContent relatedContent
  :: (if (k <? maxRetries)%nat
      then [Simplify.Delay (Z.of_nat k * baseInterval)] else []).

(** The log of the first [f] failed attempts of a record. *)
Definition failedAttempts (specContent : string) (relatedContent : option string)
    (f : nat) : list Simplify.Event :=
  mjoin (failedAttempt specContent relatedContent <$> seq 1 f).

(** The machine once the first [f] attempts of a record have failed:
    nothing but the request count and the log has changed. *)
Definition afterFailures (specContent : string) (relatedContent : option string)
    (f : nat) (m : Simplify.Machine) : Simplify.Machine :=
  Simplify.mkMachine (Simplify.disk m) (Simplify.requests m + f)
    (Simplify.log m ++ failedAttempts specContent relatedContent f)
    (Simplify.processedFiles m).

(** The entry pushed when the retry budget of [specFile] is spent. *)
Definition exhausted (specFile : SpecRecord) : ErrorEntry :=
  mkErrorEntry (specFileName specFile) exhaustedMessage.

(** The three ways the processing of a record whose files can be read ends:
    [RecordRun specFile s r m f o m'] says that, started on machine [m]
    with sanitized contents [s] and [r], the record saw [f] failed
    attempts, reached outcome [o] and left machine [m']. *)
Inductive RecordRun (specFile : SpecRecord) (s : string) (r : option string)
    (m : Simplify.Machine) : nat → ProcessingOutcome → Simplify.Machine → Prop :=
| RunSuccess f d' :
    f < maxRetries →
    RecordRun specFile s r m f Success
      (Simplify.updateReport
         (Simplify.pushSuccess (specFilePath specFile)
            (Simplify.setDisk d' (Simplify.noteRequest s r (afterFailures s r f m)))))
| RunSkipped f :
    f < maxRetries →
    RecordRun specFile s r m f Skipped
      (Simplify.updateReport
         (Simplify.pushSkipped (specFilePath specFile)
            (Simplify.noteRequest s r (afterFailures s r f m))))
| RunFailed :
    RecordRun specFile s r m maxRetries (Failed exhaustedMessage)
      (Simplify.updateReport
         (Simplify.pushError (exhausted specFile)
            (Simplify.updateReport
               (Simplify.pushError (exhausted specFile)
                  (afterFailures s r maxRetries m))))).

(** ** Sample environments *)

Module Sample.

(** The double quote, U+0022. *)
Definition DQ : string :=
  String (Ascii false true false false false true false false) EmptyString.

(** [path.join] and [path.dirname] on absolute, normalised POSIX paths. *)
Definition join (dir item : string) : string := dir +:+ "/" +:+ item.

Fixpoint cutLastSegment (s : string) : option string :=
  match s with
  | EmptyString => None
  | String c s' =>
      match cutLastSegment s' with
      | Some d => Some (String c d)
      | None => if Ascii.eqb c "/" then Some EmptyString else None
      end
  end.

Definition dirname (s : string) : string :=
  match cutLastSegment s with
  | Some EmptyString => "/"
  | Some d => d
  | None => "."
  end.

(** [fs.existsSync] for a file system that holds exactly [paths]. *)
Definition existsAmong (paths : list string) (p : string) : bool :=
  bool_decide (p ∈ paths).

(** A review service that never answers. *)
Definition silent (n : nat) (specContent : string) (relatedContent : option string)
    : option string := None.

(** A review service that plays back [replies], then falls silent. *)
Definition scripted (replies : list (option string)) (n : nat)
    (specContent : string) (relatedContent : option string) : option string :=
  match replies !! n with
  | Some reply => reply
  | None => None
  end.

(** The reply text [{"newSpecContent": "<escaped>"}]. *)
Definition contentReply (escaped : string) : string :=
  "{" +:+ DQ +:+ "newSpecContent" +:+ DQ +:+ ": " +:+ DQ +:+ escaped +:+ DQ +:+ "}".

(** The reply text [{"analysis": "nothing to simplify"}]. *)
Definition declineReply : string :=
  "{" +:+ DQ +:+ "analysis" +:+ DQ +:+ ": " +:+ DQ +:+ "nothing to simplify" +:+ DQ +:+ "}".

(** What [JSON.parse] returns on the reply texts above; it rejects every
    other text used in the examples. *)
Definition parse (text : string) : option Json :=
  if String.eqb text (contentReply "X\n") then
    Some (JObj [("newSpecContent", JStr ("X" +:+ LF))])
  else if String.eqb text (contentReply "X\n\n") then
    Some (JObj [("newSpecContent", JStr ("X" +:+ LF +:+ LF))])
  else if String.eqb text (contentReply "X") then
    Some (JObj [("newSpecContent", JStr "X")])
  else if String.eqb text declineReply then
    Some (JObj [("analysis", JStr "nothing to simplify")])
  else None.

(** A tree without any specification file. *)
Definition plainTree : list (string * Dirent) :=
  [("readme.md", File); ("src", Directory [("a.js", File); ("spec.js", File)])].

(** A tree with one unpaired specification file. *)
Definition oneSpecTree : list (string * Dirent) :=
  [("a.spec.js", File)].

(** A tree where a specification file sits next to a file whose name is
    its own name with the first marker dropped. *)
Definition doubleMarkerTree : list (string * Dirent) :=
  [("a.spec.js", File); ("a.spec.spec.js", File)].

(** A tree with a subject file one level above its specification. *)
Definition nestedTree : list (string * Dirent) :=
  [("a.js", File); ("a.spec.js", File);
   ("src", Directory [("b.ts", File);
                      ("tests", Directory [("b.spec.ts", File);
                                           ("c.spec.vue", File)])])].

Definition nestedPaths : list string :=
  ["/p/a.js"; "/p/a.spec.js"; "/p/src"; "/p/src/b.ts"; "/p/src/tests";
   "/p/src/tests/b.spec.ts"; "/p/src/tests/c.spec.vue"].

(** A disk that holds one specification file. *)
Definition oneSpecDisk : gmap string FileData :=
  {[ "/p/a.spec.js" := mkFileData "test('a', () => {});" true ]}.

Definition oneSpecRecord : SpecRecord :=
  mkSpecRecord "a.spec.js" "/p/a.spec.js" None None.

(** A disk that holds a specification file and its subject file. *)
Definition pairedDisk : gmap string FileData :=
  {[ "/p/a.spec.js" := mkFileData "test('a', () => {});" true;
     "/p/a.js" := mkFileData "export const a = 1;" true ]}.

Definition pairedRecord : SpecRecord :=
  mkSpecRecord "a.spec.js" "/p/a.spec.js" (Some "a.js") (Some "/p/a.js").

End Sample.

(** ** Further vocabulary *)

(** Every character of a text is in the class [[\x20-\x7E]]. *)
Fixpoint allPrintable (s : string) : bool :=
  match s with
  | EmptyString => true
  | String c s' => printable c && allPrintable s'
  end.

(** The number of specification files at or below an item of a listing. *)
Fixpoint specFilesBelow (item : string) (d : Dirent) : nat :=
  match d with
  | File => if isSpecName item then 1 else 0
  | Directory items =>
      sum_list_with (λ e : string * Dirent, specFilesBelow e.1 e.2) items
  end.

(** The number of specification files of a tree. *)
Definition specFilesIn (items : list (string * Dirent)) : nat :=
  sum_list_with (λ e : string * Dirent, specFilesBelow e.1 e.2) items.

(** [stamp.replace(/[:.]/g, '-')] *)
Fixpoint dashStamp (stamp : string) : string :=
  match stamp with
  | EmptyString => EmptyString
  | String c rest =>
      String (if Ascii.eqb c ":" || Ascii.eqb c "." then "-"%char else c)
             (dashStamp rest)
  end.

(** [reportFileName] of [main], where [iso] is the value of
    [new Date().toISOString()]. *)
Definition reportFileName (iso : string) : string :=
  "simplify_report_" +:+ dashStamp iso +:+ ".json".

(** [reportPath] of [main]. *)
Definition reportPath (path_join : string → string → string)
    (startDir iso : string) : string :=
  path_join startDir (reportFileName iso).

(** The text written for the content [c] of an accepted reply. *)
Definition terminated (c : string) : string :=
  if endsWith c LF then c else c +:+ LF.

(** The number of entries of the three lists of [processedFiles]. *)
Definition entryCount (p : Simplify.ProcessedFiles) : nat :=
  length (Simplify.success p) + length (Simplify.error p)
  + length (Simplify.skipped p).

(** The snapshots so far count 1, 2, 3, ... processed files, one snapshot
    per entry of the accumulator, and the last one is the accumulator. *)
Definition reportsNumbered (m : Simplify.Machine) : Prop :=
  Simplify.totalProcessed <$> reports (Simplify.log m)
  = Z.of_nat <$> seq 1 (entryCount (Simplify.processedFiles m))
  ∧ ∀ rep, last (reports (Simplify.log m)) = Some rep →
           rep = Simplify.buildReport (Simplify.processedFiles m).

(** A request of the log carries printable text only. *)
Definition requestPrintable (e : Simplify.Event) : bool :=
  match e with
  | Simplify.Request specContent relatedContent =>
      allPrintable specContent
      && match relatedContent with
         | Some c => allPrintable c
         | None => true
         end
  | _ => true
  end.

(** The reply parses, reading [newSpecContent] off the result does not
    throw, and the value read is falsy: absent, [null], [false], [0] or
    the empty string. *)
Definition offersNothing (JSON_parse : string → option Json) (reply : option string)
    : bool :=
  match reply with
  | None => false
  | Some text =>
      truthy text
      && match JSON_parse text with
         | Some parsed =>
             match newSpecContentOf parsed with
             | Normal v => negb (truthyValue v)
             | Throw _ => false
             end
         | None => false
         end
  end.

(** The reply parses, but either to [null] or to a value whose
    [newSpecContent] is truthy without being a string. *)
Definition offersUnusable (JSON_parse : string → option Json) (reply : option string)
    : bool :=
  match reply with
  | None => false
  | Some text =>
      truthy text
      && match JSON_parse text with
         | Some parsed =>
             match newSpecContentOf parsed with
             | Normal (Some (JStr _)) => false
             | Normal v => truthyValue v
             | Throw _ => true
             end
         | None => false
         end
  end.

(** The reply parses and carries a non-empty string [newSpecContent]. *)
Definition offersContent (JSON_parse : string → option Json) (reply : option string)
    : bool :=
  match reply with
  | None => false
  | Some text =>
      truthy text
      && match JSON_parse text with
         | Some parsed =>
             match newSpecContentOf parsed with
             | Normal (Some (JStr c)) => truthy c
             | _ => false
             end
         | None => false
         end
  end.

(** An event of the legacy log other than a written report. *)
Definition legacyQuiet (e : Legacy.Event) : bool :=
  match e with
  | Legacy.ReportWritten _ => false
  | _ => true
  end.

(** A request of the legacy log carries no related content. *)
Definition legacyUnrelated (e : Legacy.Event) : bool :=
  match e with
  | Legacy.Request _ (Some _) => false
  | _ => true
  end.

(** ** Further sample environments *)

Module Probe.

(** The reply text [{"newSpecContent": 7}]. *)
Definition numberReply : string :=
  "{" +:+ Sample.DQ +:+ "newSpecContent" +:+ Sample.DQ +:+ ": 7}".

(** What [JSON.parse] returns on a few more reply texts. *)
Definition parse (text : string) : option Json :=
  if String.eqb text "null" then Some JNull
  else if String.eqb text "42" then Some (JNum 42)
  else if String.eqb text "[1]" then Some (JArr [JNum 1])
  else if String.eqb text numberReply then
    Some (JObj [("newSpecContent", JNum 7)])
  else Sample.parse text.

(** A disk whose only file is a specification file that cannot be
    written. *)
Definition lockedDisk : gmap string FileData :=
  {[ "/p/a.spec.js" := mkFileData "test('a', () => {});" false ]}.

(** A record whose related file has gone since discovery. *)
Definition staleRecord : SpecRecord :=
  mkSpecRecord "a.spec.js" "/p/a.spec.js" (Some "a.js") (Some "/p/a.js").

End Probe.

(** ** Node's [path] functions on POSIX *)

Module Posix.

(** [path.split('/')]: the segments between the slashes. *)
Fixpoint segments (path : string) : list string :=
  match path with
  | EmptyString => [EmptyString]
  | String c rest =>
      if Ascii.eqb c "/" then EmptyString :: segments rest
      else match segments rest with
           | seg :: more => String c seg :: more
           | [] => [String c EmptyString]
           end
  end.

(** The segments joined with slashes. *)
Fixpoint joinSegments (segs : list string) : string :=
  match segs with
  | [] => EmptyString
  | [seg] => seg
  | seg :: more => seg +:+ "/" +:+ joinSegments more
  end.

(** [normalizeString] of [lib/path.js], segment by segment: empty segments
    and [.] are dropped, [..] removes the segment before it unless there
    is none or it is itself [..], in which case it is kept when
    [allowAboveRoot] and dropped otherwise.  [kept] holds the segments
    kept so far, last first. *)
Fixpoint resolveSegments (allowAboveRoot : bool) (segs kept : list string)
    : list string :=
  match segs with
  | [] => rev kept
  | seg :: more =>
      if String.eqb seg "" || String.eqb seg "." then
        resolveSegments allowAboveRoot more kept
      else if String.eqb seg ".." then
        match kept with
        | top :: below =>
            if String.eqb top ".." then
              resolveSegments allowAboveRoot more
                (if allowAboveRoot then ".." :: kept else kept)
            else resolveSegments allowAboveRoot more below
        | [] =>
            resolveSegments allowAboveRoot more
              (if allowAboveRoot then [".."] else [])
        end
      else resolveSegments allowAboveRoot more (seg :: kept)
  end.

(** [path.normalize(path)] *)
Definition normalize (path : string) : string :=
  if String.eqb path "" then "."
  else
    let isAbsolute := startsWith path "/" in
    let trailingSeparator := endsWith path "/" in
    let body := joinSegments (resolveSegments (negb isAbsolute) (segments path) []) in
    if String.eqb body "" then
      if isAbsolute then "/" else if trailingSeparator then "./" else "."
    else
      let body := if trailingSeparator then body +:+ "/" else body in
      if isAbsolute then "/" +:+ body else body.

(** [path.join(a, b)]: the non-empty arguments joined with a slash, then
    normalized; [.] when both are empty. *)
Definition join (a b : string) : string :=
  if String.eqb a "" then
    if String.eqb b "" then "." else normalize b
  else if String.eqb b "" then normalize a
  else normalize (a +:+ "/" +:+ b).

(** The scan of [path.dirname] from the last character down to the second:
    [chars] holds the characters still to visit, the one at index [i]
    first; the result is the index of the slash that ends the directory
    part, if there is one. *)
Fixpoint lastSeparator (chars : list ascii) (matchedSlash : bool) (i : nat)
    : option nat :=
  match chars with
  | [] => None
  | c :: more =>
      if Ascii.eqb c "/" then
        if matchedSlash then lastSeparator more true (Nat.pred i) else Some i
      else lastSeparator more false (Nat.pred i)
  end.

(** [path.dirname(path)] *)
Definition dirname (path : string) : string :=
  if String.eqb path "" then "."
  else
    let hasRoot := startsWith path "/" in
    let chars := String.list_ascii_of_string path in
    match lastSeparator (rev (tail chars)) true (String.length path - 1) with
    | None => if hasRoot then "/" else "."
    | Some stop => if hasRoot && (stop =? 1)%nat then "//" else take stop path
    end.

End Posix.

(** A project directory scanned from inside, as [.]: a specification file at
    the top whose subject file is one level up, and one in [tests] whose
    subject file is at the top. *)
Module DotRun.

Definition tree : list (string * Dirent) :=
  [("a.spec.js", File); ("b.js", File);
   ("tests", Directory [("b.spec.js", File)])].

(** The paths that exist, as seen from the project directory. *)
Definition seenFromInside : list string :=
  ["."; ".."; "../a.js"; "a.spec.js"; "b.js"; "tests"; "tests/b.spec.js"].

(** The same files, named from the root. *)
Definition seenFromRoot : list string :=
  ["/work"; "/work/a.js"; "/work/proj"; "/work/proj/a.spec.js"; "/work/proj/b.js";
   "/work/proj/tests"; "/work/proj/tests/b.spec.js"].

End DotRun.

(** * Properties *)

(** ** Strings *)

Section StringFacts.


Lemma append_nil (t : string) : "" +:+ t = t.
Proof. reflexivity. Qed.

Lemma append_cons (c : ascii) (s t : string) :
  String c s +:+ t = String c (s +:+ t).
Proof. reflexivity. Qed.

Lemma append_empty_r (s : string) : s +:+ "" = s.
Proof. induction s as [|c s IH]; [done | by rewrite append_cons, IH]. Qed.

Lemma append_assoc (a b c : string) : (a +:+ b) +:+ c = a +:+ (b +:+ c).
Proof. induction a as [|x a IH]; [done | by rewrite !append_cons, IH]. Qed.

Lemma length_append (a b : string) :
  String.length (a +:+ b) = String.length a + String.length b.
Proof.
  induction a as [|x a IH]; [done |].
  rewrite append_cons. simpl. by rewrite IH.
Qed.

Lemma skip_append (a b : string) : skip (String.length a) (a +:+ b) = b.
Proof.
  induction a as [|x a IH]; [by destruct b |].
  rewrite append_cons. simpl. done.
Qed.

Lemma take_skip (n : nat) (s : string) : take n s +:+ skip n s = s.
Proof.
  revert s; induction n as [|n IH]; intros [|c s]; simpl; try done.
  by rewrite append_cons, IH.
Qed.

Lemma startsWith_append (pat r : string) : startsWith (pat +:+ r) pat = true.
Proof.
  induction pat as [|p pat IH]; [reflexivity |].
  rewrite append_cons. simpl. by rewrite Ascii.eqb_refl, IH.
Qed.

Lemma startsWith_inv (s pat : string) :
  startsWith s pat = true → s = pat +:+ skip (String.length pat) s.
Proof.
  revert s; induction pat as [|p pat IH]; intros s H; simpl in *; [by destruct s |].
  destruct s as [|c s]; [done |].
  apply andb_prop in H as [Hc Hs]. apply Ascii.eqb_eq in Hc as ->.
  rewrite append_cons. f_equal. by apply IH.
Qed.

Lemma startsWith_shorten (a b pat : string) :
  startsWith (a +:+ b) pat = true → String.length pat ≤ String.length a →
  startsWith a pat = true.
Proof.
  revert a; induction pat as [|p pat IH]; intros a H Hlen; simpl in *; [done |].
  destruct a as [|c a]; simpl in *; [lia |].
  rewrite ?append_cons in H. simpl in H.
  apply andb_prop in H as [Hc Hs]. rewrite Hc. simpl. apply IH; [done | lia].
Qed.

Lemma endsWith_append (w suf : string) : endsWith (w +:+ suf) suf = true.
Proof.
  unfold endsWith. rewrite length_append.
  replace (String.length w + String.length suf - String.length suf)
    with (String.length w) by lia.
  rewrite skip_append, String.eqb_refl.
  rewrite andb_true_r. apply Nat.leb_le. lia.
Qed.

Lemma endsWith_inv (s suf : string) :
  endsWith s suf = true → ∃ w, s = w +:+ suf.
Proof.
  unfold endsWith. intros H. apply andb_prop in H as [_ H].
  apply String.eqb_eq in H.
  exists (take (String.length s - String.length suf) s).
  pose proof (take_skip (String.length s - String.length suf) s) as E.
  by rewrite H in E.
Qed.

Lemma endsWith_cons (c : ascii) (s suf : string) :
  endsWith s suf = true → endsWith (String c s) suf = true.
Proof.
  intros [w ->]%endsWith_inv.
  change (String c (w +:+ suf)) with (String c w +:+ suf).
  apply endsWith_append.
Qed.

(** Two suffixes of one string are comparable. *)
Lemma suffix_comparable (w t x suf : string) :
  w +:+ t = x +:+ suf →
  (∃ y, t = y +:+ suf) ∨ (∃ c z, suf = String c z +:+ t).
Proof.
  revert x; induction w as [|c w IH]; intros x H.
  - left. by exists x.
  - rewrite append_cons in H. destruct x as [|c' x].
    + right. by exists c, w.
    + rewrite append_cons in H. injection H as _ H. by apply IH in H.
Qed.

Lemma properSuffixes_complete (c : ascii) (z t suf : string) :
  suf = String c z +:+ t → t ∈ properSuffixes suf.
Proof.
  revert c suf; induction z as [|c' z IH]; intros c suf ->;
    rewrite append_cons;
    change (properSuffixes (String c ?x)) with (x :: properSuffixes x).
  - apply list_elem_of_here.
  - apply list_elem_of_further. by eapply IH.
Qed.

Lemma isSpecName_cons (c : ascii) (s : string) :
  isSpecName s = true → isSpecName (String c s) = true.
Proof.
  unfold isSpecName. rewrite !orb_true_iff.
  intros [[H|H]|H]; eauto using endsWith_cons.
Qed.

Lemma endsWith_of_suffix (w t suf : string) :
  Forall (λ u, occurrences ".spec." u = 0) (properSuffixes suf) →
  1 ≤ occurrences ".spec." t →
  endsWith (w +:+ t) suf = true → endsWith t suf = true.
Proof.
  intros Hsuf Hocc [x Hx]%endsWith_inv.
  destruct (suffix_comparable _ _ _ _ Hx) as [[y ->]|(c & z & Hz)].
  - apply endsWith_append.
  - apply properSuffixes_complete in Hz.
    rewrite Forall_forall in Hsuf. apply Hsuf in Hz. lia.
Qed.

(** A name that still holds the marker keeps the specification suffix
    of any name it is the tail of. *)
Lemma isSpecName_of_suffix (w t : string) :
  1 ≤ occurrences ".spec." t →
  isSpecName (w +:+ t) = true → isSpecName t = true.
Proof.
  intros Hocc. unfold isSpecName. rewrite !orb_true_iff.
  intros [[H|H]|H]; [left; left | left; right | right];
    (eapply endsWith_of_suffix; [| exact Hocc | exact H]);
    vm_compute; repeat constructor.
Qed.

Lemma occurrences_cons (pat : string) (c : ascii) (s : string) :
  occurrences pat (String c s)
  = (if startsWith (String c s) pat then 1 else 0) + occurrences pat s.
Proof. reflexivity. Qed.

Lemma replace_cons (c : ascii) (s pat rep : string) :
  replace (String c s) pat rep
  = if startsWith (String c s) pat then rep +:+ skip (String.length pat) (String c s)
    else String c (replace s pat rep).
Proof. reflexivity. Qed.

Lemma derive_keeps_suffix (item : string) :
  isSpecName item = true → 2 ≤ occurrences ".spec." item →
  isSpecName (deriveRelatedName item) = true.
Proof.
  unfold deriveRelatedName.
  induction item as [|c s IH]; intros Hspec Hocc; [vm_compute in Hocc; lia |].
  rewrite occurrences_cons in Hocc. rewrite replace_cons.
  destruct (startsWith (String c s) ".spec.") eqn:Hst.
  - apply startsWith_inv in Hst.
    remember (skip (String.length ".spec.") (String c s)) as q eqn:Hq.
    clear Hq. injection Hst as -> ->.
    apply (isSpecName_of_suffix ".spec" ("." +:+ q)); [| exact Hspec].
    vm_compute in Hocc. vm_compute. lia.
  - apply isSpecName_cons, IH; [| lia].
    apply (isSpecName_of_suffix (String c "") s); [lia | exact Hspec].
Qed.

Lemma derive_first_only (pre post : string) :
  occurrences ".spec." (pre +:+ ".spec") = 0 →
  deriveRelatedName (pre +:+ ".spec." +:+ post) = pre +:+ "." +:+ post.
Proof.
  unfold deriveRelatedName.
  induction pre as [|c pre IH]; intros Hocc; [reflexivity |].
  rewrite (append_cons c pre) in Hocc. rewrite !(append_cons c pre).
  rewrite occurrences_cons in Hocc. rewrite replace_cons.
  destruct (startsWith (String c (pre +:+ ".spec." +:+ post)) ".spec.") eqn:Hst.
  - exfalso.
    assert (startsWith (String c (pre +:+ ".spec")) ".spec." = true) as Hst'.
    { apply (startsWith_shorten _ ("." +:+ post)).
      - rewrite (append_cons c), append_assoc. exact Hst.
      - simpl. rewrite length_append. simpl. lia. }
    rewrite Hst' in Hocc. lia.
  - f_equal. apply IH. lia.
Qed.

Lemma append_cancel_r (a b x : string) : a +:+ x = b +:+ x → a = b.
Proof.
  revert b; induction a as [|c a IH]; intros [|c' b] H; [done | | |].
  - apply (f_equal String.length) in H.
    rewrite append_nil, append_cons in H. simpl in H.
    rewrite length_append in H. lia.
  - apply (f_equal String.length) in H.
    rewrite append_nil, append_cons in H. simpl in H.
    rewrite length_append in H. lia.
  - rewrite !append_cons in H. injection H as -> H. f_equal. by apply IH.
Qed.

(** Appending a terminator to a text that has none leaves exactly one. *)
Lemma exactlyOne_after_append (c : string) :
  endsWith c LF = false → exactlyOneTrailingLF (c +:+ LF).
Proof.
  intros Hc. split; [apply endsWith_append |].
  destruct (endsWith (c +:+ LF) (LF +:+ LF)) eqn:He; [| done].
  apply endsWith_inv in He as [w Hw].
  rewrite <- append_assoc in Hw. apply append_cancel_r in Hw as ->.
  by rewrite endsWith_append in Hc.
Qed.

End StringFacts.

(** ** The disk *)

Lemma writeFileSync_lookup (d d' : gmap string FileData) (p data : string) :
  writeFileSync d p data = Normal d' →
  content <$> (d' !! p) = Some data.
Proof.
  unfold writeFileSync. intros H.
  destruct (d !! p) as [f|]; [destruct (writable f) |]; try done;
    injection H as <-; by rewrite lookup_insert_eq.
Qed.

(** ** Discovery and pairing *)


(** Induction on directory trees, with the hypothesis available for every
    item of a directory. *)
Lemma Dirent_tree_ind (P : Dirent → Prop) :
  P File →
  (∀ items, Forall (λ e, P e.2) items → P (Directory items)) →
  ∀ d, P d.
Proof.
  intros HFile HDir. fix IH 1. intros [|items]; [exact HFile |].
  apply HDir. induction items as [|[i d] items IHitems]; constructor.
  - apply IH.
  - exact IHitems.
Qed.

Lemma fold_left_pushes {A B : Type} (f : list B → A → list B) (l : list A) :
  Forall (λ a, ∀ acc, f acc a = acc ++ f [] a) l →
  ∀ acc, fold_left f l acc = acc ++ mjoin ((f []) <$> l).
Proof.
  induction 1 as [|a l Ha _ IH]; intros acc; simpl.
  - by rewrite app_nil_r.
  - rewrite IH, Ha. by rewrite <- app_assoc.
Qed.

Section DiscoveryFacts.


Variable path_join : string → string → string.
Variable path_dirname : string → string.
Variable existsSync : string → bool.

Abbreviation visitItem := (visitItem path_join path_dirname existsSync).
Abbreviation specRecord := (specRecord path_join path_dirname existsSync).
Abbreviation findSpecFilesAndRelated :=
  (findSpecFilesAndRelated path_join path_dirname existsSync).
Abbreviation FileIn := (FileIn path_join).

(** The callback only ever pushes on [filesList]. *)
Lemma visitItem_pushes (d : Dirent) :
  ∀ dir item acc, visitItem dir item d acc = acc ++ visitItem dir item d [].
Proof.
  induction d as [|items IH] using Dirent_tree_ind; intros dir item acc; simpl.
  - by destruct (isSpecName item); rewrite ?app_nil_r.
  - assert (Forall (λ e : string * Dirent, ∀ acc',
               visitItem (path_join dir item) e.1 e.2 acc'
               = acc' ++ visitItem (path_join dir item) e.1 e.2 []) items) as Hf.
    { eapply Forall_impl; [exact IH |]. intros [i d] Hd acc'. apply Hd. }
    by rewrite (fold_left_pushes _ _ Hf acc), (fold_left_pushes _ _ Hf []).
Qed.

Lemma findSpecFilesAndRelated_unfold dir items acc :
  findSpecFilesAndRelated dir items acc
  = acc ++ mjoin ((λ e, visitItem dir e.1 e.2 []) <$> items).
Proof.
  unfold findSpecFilesAndRelated.
  apply (fold_left_pushes (λ acc' (e : string * Dirent), visitItem dir e.1 e.2 acc')).
  apply Forall_forall. intros [i d] _ acc'. apply visitItem_pushes.
Qed.

Lemma visitItem_Directory dir item items acc :
  visitItem dir item (Directory items) acc
  = findSpecFilesAndRelated (path_join dir item) items acc.
Proof. reflexivity. Qed.

Lemma elem_of_find_iff dir items r :
  r ∈ findSpecFilesAndRelated dir items []
  ↔ ∃ i d, (i, d) ∈ items ∧ r ∈ visitItem dir i d [].
Proof.
  rewrite findSpecFilesAndRelated_unfold. simpl.
  rewrite list_elem_of_join. split.
  - intros (l & Hr & Hl). apply list_elem_of_fmap in Hl as ([i d] & -> & He).
    by exists i, d.
  - intros (i & d & He & Hr). exists (visitItem dir i d []). split; [done |].
    apply list_elem_of_fmap. by exists (i, d).
Qed.

(** The records pushed for a directory are those of the specification
    files below it. *)
Lemma visitItem_records (d : Dirent) :
  ∀ dir item r,
    r ∈ visitItem dir item d []
    ↔ match d with
      | File => isSpecName item = true ∧ r = specRecord dir item
      | Directory items =>
          ∃ d' i, FileIn (path_join dir item) items d' i
                  ∧ isSpecName i = true ∧ r = specRecord d' i
      end.
Proof.
  induction d as [|items IH] using Dirent_tree_ind; intros dir item r.
  - simpl. destruct (isSpecName item); simpl.
    + rewrite list_elem_of_singleton. split; [by intros -> | by intros [_ ->]].
    + rewrite elem_of_nil. split; [done | by intros [? _]].
  - rewrite visitItem_Directory, elem_of_find_iff.
    rewrite Forall_forall in IH. split.
    + intros (i & d & He & Hr). specialize (IH _ He). simpl in IH.
      apply IH in Hr. destruct d as [|sub].
      * destruct Hr as [Hs ->]. exists (path_join dir item), i.
        split; [by constructor | done].
      * destruct Hr as (d' & i' & Hin & Hs & ->). exists d', i'.
        split; [by econstructor | done].
    + intros (d' & i & Hin & Hs & ->).
      inversion Hin as [? ? ? He | ? ? sub subitems ? ? He Hsub]; subst.
      * exists i, File. split; [done |]. apply (IH _ He). done.
      * exists sub, (Directory subitems). split; [done |].
        apply (IH _ He). simpl. by exists d', i.
Qed.

Lemma findSpecFilesAndRelated_records dir items r :
  r ∈ findSpecFilesAndRelated dir items []
  ↔ ∃ d i, FileIn dir items d i ∧ isSpecName i = true ∧ r = specRecord d i.
Proof.
  rewrite elem_of_find_iff. split.
  - intros (i & d & He & Hr). apply visitItem_records in Hr.
    destruct d as [|sub].
    + destruct Hr as [Hs ->]. exists dir, i. split; [by constructor | done].
    + destruct Hr as (d' & i' & Hin & Hs & ->). exists d', i'.
      split; [by econstructor | done].
  - intros (d & i & Hin & Hs & ->).
    inversion Hin as [? ? ? He | ? ? sub subitems ? ? He Hsub]; subst.
    + exists i, File. split; [done |]. by apply visitItem_records.
    + exists sub, (Directory subitems). split; [done |].
      apply visitItem_records. by exists d, i.
Qed.


(** A tree without specification files yields no record. *)
Lemma no_spec_files_no_records startDir items :
  (∀ dir item, FileIn startDir items dir item → isSpecName item = false) →
  findSpecFilesAndRelated startDir items [] = [].
Proof.
  intros Hnone.
  destruct (findSpecFilesAndRelated startDir items []) as [|r rest] eqn:Hres; [done |].
  assert (r ∈ findSpecFilesAndRelated startDir items []) as Hr
    by (rewrite Hres; apply list_elem_of_here).
  apply findSpecFilesAndRelated_records in Hr as (d & i & Hin & Hs & _).
  apply Hnone in Hin. congruence.
Qed.

(** The three steps of the resolution, in the order they are tried. *)
Lemma resolveRelated_order dir item :
  let name := deriveRelatedName item in
  let here := path_join dir name in
  let above := path_join (path_dirname dir) name in
  (existsSync here = true → resolveRelated path_join path_dirname existsSync dir item = Some here)
  ∧ (existsSync here = false → existsSync above = true →
     resolveRelated path_join path_dirname existsSync dir item = Some above)
  ∧ (existsSync here = false → existsSync above = false →
     resolveRelated path_join path_dirname existsSync dir item = None).
Proof.
  unfold resolveRelated. simpl. repeat split.
  - by intros ->.
  - by intros -> ->.
  - by intros -> ->.
Qed.

(** Every specification file of the tree yields a record, paired or not;
    its subject file is looked up first in the file's own directory, in
    [path.dirname] of that directory only if no entry of the derived name
    exists there, and the related path is absent if it exists in neither;
    and the records of the result are exactly these.  Whether
    [path.dirname] of a directory is the directory one level up is a
    matter of the path it is given. *)
Theorem subject_resolution_order startDir items dir item :
  FileIn startDir items dir item →
  isSpecName item = true →
  let result := findSpecFilesAndRelated startDir items [] in
  let record := specRecord dir item in
  let name := deriveRelatedName item in
  let here := path_join dir name in
  let above := path_join (path_dirname dir) name in
  record ∈ result
  ∧ specFileName record = item
  ∧ specFilePath record = path_join dir item
  ∧ (existsSync here = true → relatedFilePath record = Some here)
  ∧ (existsSync here = false → existsSync above = true →
     relatedFilePath record = Some above)
  ∧ (existsSync here = false → existsSync above = false →
     relatedFilePath record = None ∧ relatedFileName record = None)
  ∧ (∀ r, r ∈ result →
       ∃ dir' item', FileIn startDir items dir' item'
                     ∧ isSpecName item' = true ∧ r = specRecord dir' item').
Proof.
  intros Hin Hspec. simpl.
  destruct (resolveRelated_order dir item) as (Hhere & Habove & Hnone).
  split; [apply findSpecFilesAndRelated_records; by exists dir, item |].
  do 2 (split; [done |]).
  split; [exact Hhere |]. split; [exact Habove |]. split.
  - intros H1 H2. cbn. by rewrite (Hnone H1 H2).
  - intros r Hr. by apply findSpecFilesAndRelated_records in Hr.
Qed.

End DiscoveryFacts.

Lemma subject_resolution_order_example :
  let existsSync := Sample.existsAmong Sample.nestedPaths in
  let result :=
    findSpecFilesAndRelated Sample.join Sample.dirname existsSync "/p"
      Sample.nestedTree [] in
  mkSpecRecord "b.spec.ts" "/p/src/tests/b.spec.ts" (Some "b.ts") (Some "/p/src/b.ts")
    ∈ result
  ∧ mkSpecRecord "c.spec.vue" "/p/src/tests/c.spec.vue" None None ∈ result.
Proof.
  simpl. split.
  - apply (subject_resolution_order Sample.join Sample.dirname
             (Sample.existsAmong Sample.nestedPaths)
             "/p" Sample.nestedTree "/p/src/tests" "b.spec.ts"); [| reflexivity].
    apply (FileIn_sub Sample.join "/p" Sample.nestedTree "src"
             [("b.ts", File);
              ("tests", Directory [("b.spec.ts", File); ("c.spec.vue", File)])]).
    { unfold Sample.nestedTree. repeat constructor. }
    apply (FileIn_sub Sample.join "/p/src" _ "tests"
             [("b.spec.ts", File); ("c.spec.vue", File)]).
    { repeat constructor. }
    apply (FileIn_here Sample.join "/p/src/tests"). repeat constructor.
  - apply (subject_resolution_order Sample.join Sample.dirname
             (Sample.existsAmong Sample.nestedPaths)
             "/p" Sample.nestedTree "/p/src/tests" "c.spec.vue"); [| reflexivity].
    apply (FileIn_sub Sample.join "/p" Sample.nestedTree "src"
             [("b.ts", File);
              ("tests", Directory [("b.spec.ts", File); ("c.spec.vue", File)])]).
    { unfold Sample.nestedTree. repeat constructor. }
    apply (FileIn_sub Sample.join "/p/src" _ "tests"
             [("b.spec.ts", File); ("c.spec.vue", File)]).
    { repeat constructor. }
    apply (FileIn_here Sample.join "/p/src/tests"). repeat constructor.
Defined.

(** C5 fails on the code for a start directory entered as [.]: the
    fallback directory is computed as [path.dirname(dir)], and
    [path.dirname('.')] is [.] itself, so for a specification file at the
    top of the scanned directory the second lookup asks for the very path
    the first lookup has just found missing.  The subject file one level
    up, at [../a.js], exists and is never looked up, and the record is left
    unpaired.  Below the top the fallback does reach the directory one
    level up ([tests/b.spec.js] is paired with [b.js]), and so it does at
    the top when the same directory is entered by its absolute path. *)
Theorem C5_dot_start_directory_never_looks_one_level_up :
  let existsSync := Sample.existsAmong DotRun.seenFromInside in
  existsSync (Posix.join ".." (deriveRelatedName "a.spec.js")) = true
  ∧ Posix.dirname "." = "."
  ∧ Posix.join (Posix.dirname ".") (deriveRelatedName "a.spec.js")
    = Posix.join "." (deriveRelatedName "a.spec.js")
  ∧ findSpecFilesAndRelated Posix.join Posix.dirname existsSync "." DotRun.tree []
    = [mkSpecRecord "a.spec.js" "a.spec.js" None None;
       mkSpecRecord "b.spec.js" "tests/b.spec.js" (Some "b.js") (Some "b.js")]
  ∧ findSpecFilesAndRelated Posix.join Posix.dirname
      (Sample.existsAmong DotRun.seenFromRoot) "/work/proj" DotRun.tree []
    = [mkSpecRecord "a.spec.js" "/work/proj/a.spec.js" (Some "a.js") (Some "/work/a.js");
       mkSpecRecord "b.spec.js" "/work/proj/tests/b.spec.js"
         (Some "b.js") (Some "/work/proj/b.js")].
Proof.
  simpl. split; [reflexivity |]. split; [reflexivity |]. split; [reflexivity |].
  split; vm_compute; reflexivity.
Qed.

(** C10: only the first [.spec.] of a name is replaced, so a specification
    file whose name holds the marker more than once derives a name that
    still has a specification suffix, and is paired with the specification
    file of that name when it exists beside it. *)
Theorem C10_first_marker_only (item pre post : string) :
  item = pre +:+ ".spec." +:+ post →
  occurrences ".spec." (pre +:+ ".spec") = 0 →
  2 ≤ occurrences ".spec." item →
  isSpecName item = true →
  deriveRelatedName item = pre +:+ "." +:+ post
  ∧ isSpecName (deriveRelatedName item) = true
  ∧ ∀ (path_join : string → string → string) (path_dirname : string → string)
      (existsSync : string → bool) (dir : string),
      existsSync (path_join dir (deriveRelatedName item)) = true →
      relatedFilePath (specRecord path_join path_dirname existsSync dir item)
      = Some (specFilePath
                (specRecord path_join path_dirname existsSync dir
                   (deriveRelatedName item))).
Proof.
  intros -> Hfirst Htwice Hspec.
  split; [by apply derive_first_only |].
  split; [by apply derive_keeps_suffix |].
  intros path_join path_dirname existsSync dir Hexists.
  unfold specRecord, resolveRelated. simpl. by rewrite Hexists.
Qed.

Lemma C10_first_marker_only_witness :
  deriveRelatedName "a.spec.spec.js" = "a.spec.js"
  ∧ isSpecName (deriveRelatedName "a.spec.spec.js") = true
  ∧ relatedFilePath
      (specRecord Sample.join Sample.dirname
         (Sample.existsAmong ["/p/a.spec.js"; "/p/a.spec.spec.js"])
         "/p" "a.spec.spec.js")
    = Some "/p/a.spec.js".
Proof.
  destruct (C10_first_marker_only "a.spec.spec.js" "a" "spec.js")
    as (Hname & Hspec & Hpair);
    [reflexivity | reflexivity | vm_compute; lia | reflexivity |].
  split; [exact Hname |]. split; [exact Hspec |].
  exact (Hpair Sample.join Sample.dirname
           (Sample.existsAmong ["/p/a.spec.js"; "/p/a.spec.spec.js"])
           "/p" eq_refl).
Defined.

(** ** The orchestrator with the persisted report *)

Section SimplifyFacts.


Import Simplify.

Variable JSON_parse : string → option Json.
Variable sendToClaudeForReview : nat → string → option string → option string.

Abbreviation attempt := (Simplify.attempt JSON_parse sendToClaudeForReview).
Abbreviation whileLoop := (Simplify.whileLoop JSON_parse sendToClaudeForReview).
Abbreviation processSpecFile :=
  (Simplify.processSpecFile JSON_parse sendToClaudeForReview).
Abbreviation forLoop := (Simplify.forLoop JSON_parse sendToClaudeForReview).

Implicit Types (m : Machine) (sf : SpecRecord) (s : string) (r : option string).

(** *** One attempt *)

(** What one pass through the loop body can do. *)
Lemma attempt_cases sf s r m :
  (∃ resp, attempt sf s r m = (resp, noteRequest s r m)
           ∧ truthy_opt resp = false)
  ∨ (∃ resp d', attempt sf s r m
                = (resp, updateReport
                           (pushSuccess (specFilePath sf) (setDisk d' (noteRequest s r m))))
                ∧ truthy_opt resp = true)
  ∨ (∃ resp, attempt sf s r m
             = (resp, updateReport (pushSkipped (specFilePath sf) (noteRequest s r m)))
             ∧ truthy_opt resp = true).
Proof.
  unfold Simplify.attempt.
  destruct (sendToClaudeForReview (requests m) s r) as [text|]; [| left; eauto].
  destruct (truthy text) eqn:Ht; [| left; eexists; split; [done | by simpl; rewrite Ht]].
  destruct (JSON_parse text) as [parsed|]; [| left; eauto].
  destruct (newSpecContentOf parsed) as [content|]; [| left; eauto].
  destruct (truthyValue content) eqn:Hc.
  - destruct content as [[| | |c| |]|]; try (left; by eauto).
    destruct (writeFileSync _ _ _) as [d'|]; [| left; by eauto].
    right; left. exists (Some text), d'. by simpl.
  - right; right. exists (Some text). by simpl.
Qed.

Lemma attempt_failing sf s r m :
  reviewFails JSON_parse (sendToClaudeForReview (requests m) s r) = true →
  ∃ resp, attempt sf s r m = (resp, noteRequest s r m) ∧ truthy_opt resp = false.
Proof.
  unfold reviewFails, Simplify.attempt.
  destruct (sendToClaudeForReview (requests m) s r) as [text|]; [| eauto].
  destruct (truthy text) eqn:Ht; simpl; [| intros _; eexists; split; [done | by simpl; rewrite Ht]].
  destruct (JSON_parse text); [done | eauto].
Qed.

Lemma attempt_declined sf s r m :
  declinesContent JSON_parse (sendToClaudeForReview (requests m) s r) = true →
  ∃ resp, attempt sf s r m
          = (resp, updateReport (pushSkipped (specFilePath sf) (noteRequest s r m)))
          ∧ truthy_opt resp = true.
Proof.
  unfold declinesContent, Simplify.attempt.
  destruct (sendToClaudeForReview (requests m) s r) as [text|]; [| done].
  destruct (truthy text) eqn:Ht; simpl; [| done].
  destruct (JSON_parse text) as [[| | | | |props]|]; try done. simpl.
  destruct (ownProperty "newSpecContent" props) as [[| | |c| |]|]; try done; simpl.
  - intros Hc. apply negb_true_iff in Hc. rewrite Hc. eauto.
  - eauto.
Qed.

Lemma attempt_accepted sf s r m text parsed c d' :
  sendToClaudeForReview (requests m) s r = Some text →
  truthy text = true →
  JSON_parse text = Some parsed →
  newSpecContentOf parsed = Normal (Some (JStr c)) →
  truthy c = true →
  writeFileSync (disk m) (specFilePath sf) (if endsWith c LF then c else c +:+ LF)
  = Normal d' →
  attempt sf s r m
  = (Some text,
     updateReport (pushSuccess (specFilePath sf) (setDisk d' (noteRequest s r m)))).
Proof.
  intros Hsend Ht Hp Hn Hc Hw. unfold Simplify.attempt.
  rewrite Hsend, Ht, Hp, Hn. simpl. rewrite Hc. simpl in *. by rewrite Hw.
Qed.

(** *** The retry loop *)

Lemma whileLoop_unfold fuel sf s r retries resp m :
  whileLoop (S fuel) sf s r retries resp m
  = if (retries <? maxRetries)%nat && negb (truthy_opt resp) then
      let '(resp1, m1) := attempt sf s r m in
      if negb (truthy_opt resp1) then
        if (S retries <? maxRetries)%nat then
          whileLoop fuel sf s r (S retries) resp1
            (emit (Delay (1000 * Z.of_nat (S retries))) m1)
        else
          whileLoop fuel sf s r (S retries) resp1
            (updateReport
               (pushError (mkErrorEntry (specFileName sf) exhaustedMessage) m1))
      else whileLoop fuel sf s r retries resp1 m1
    else Some (retries, resp, m).
Proof. reflexivity. Qed.

Lemma whileLoop_exit fuel sf s r retries resp m :
  (retries <? maxRetries)%nat && negb (truthy_opt resp) = false →
  whileLoop fuel sf s r retries resp m = Some (retries, resp, m).
Proof. intros H. destruct fuel; simpl; by rewrite H. Qed.

(** A failed attempt that leaves budget: back off and go round again. *)
Lemma whileLoop_retry fuel sf s r retries resp m resp1 :
  truthy_opt resp = false → S retries < maxRetries →
  attempt sf s r m = (resp1, noteRequest s r m) → truthy_opt resp1 = false →
  whileLoop (S fuel) sf s r retries resp m
  = whileLoop fuel sf s r (S retries) resp1
      (emit (Delay (1000 * Z.of_nat (S retries))) (noteRequest s r m)).
Proof.
  intros Hr Hlt Ha Hf. rewrite whileLoop_unfold, Ha, Hr, Hf. simpl.
  assert ((retries <? maxRetries)%nat = true) as -> by (apply Nat.ltb_lt; lia).
  assert ((S retries <? maxRetries)%nat = true) as -> by (by apply Nat.ltb_lt).
  done.
Qed.

(** The failed attempt that spends the budget: the loop records the
    failure and ends. *)
Lemma whileLoop_exhaust fuel sf s r retries resp m resp1 :
  truthy_opt resp = false → S retries = maxRetries →
  attempt sf s r m = (resp1, noteRequest s r m) → truthy_opt resp1 = false →
  whileLoop (S fuel) sf s r retries resp m
  = Some (maxRetries, resp1,
          updateReport
            (pushError (mkErrorEntry (specFileName sf) exhaustedMessage)
                       (noteRequest s r m))).
Proof.
  intros Hr Hlt Ha Hf. rewrite whileLoop_unfold, Ha, Hr, Hf. simpl.
  assert ((retries <? maxRetries)%nat = true) as -> by (apply Nat.ltb_lt; lia).
  rewrite Hlt. rewrite Nat.ltb_irrefl. simpl.
  apply whileLoop_exit. by rewrite Nat.ltb_irrefl.
Qed.

(** An attempt that leaves a usable response ends the loop. *)
Lemma whileLoop_done fuel sf s r retries resp m resp1 m1 :
  truthy_opt resp = false → retries < maxRetries →
  attempt sf s r m = (resp1, m1) → truthy_opt resp1 = true →
  whileLoop (S fuel) sf s r retries resp m = Some (retries, resp1, m1).
Proof.
  intros Hr Hlt Ha Hf. rewrite whileLoop_unfold, Ha, Hr, Hf. simpl.
  assert ((retries <? maxRetries)%nat = true) as -> by (by apply Nat.ltb_lt).
  simpl. apply whileLoop_exit. rewrite Hf. by rewrite andb_false_r.
Qed.

(** *** The machine after a run of failed attempts *)

Lemma failedAttempts_S s r f :
  failedAttempts s r (S f) = failedAttempts s r f ++ failedAttempt s r (S f).
Proof.
  unfold failedAttempts. rewrite seq_S, fmap_app, join_app. simpl.
  by rewrite app_nil_r.
Qed.

Lemma afterFailures_0 s r m : afterFailures s r 0 m = m.
Proof.
  destruct m as [d n l p]. unfold afterFailures. simpl.
  by rewrite Nat.add_0_r, app_nil_r.
Qed.

Lemma afterFailures_retry s r f m :
  S f < maxRetries →
  emit (Delay (1000 * Z.of_nat (S f))) (noteRequest s r (afterFailures s r f m))
  = afterFailures s r (S f) m.
Proof.
  intros Hlt. unfold afterFailures, noteRequest, emit. simpl.
  rewrite failedAttempts_S. unfold failedAttempt, baseInterval.
  apply Nat.ltb_lt in Hlt as ->.
  rewrite Nat.add_succ_r, <- !app_assoc. simpl.
  by rewrite (Z.mul_comm 1000).
Qed.

Lemma afterFailures_last s r f m :
  S f = maxRetries →
  noteRequest s r (afterFailures s r f m) = afterFailures s r maxRetries m.
Proof.
  intros Heq. unfold afterFailures, noteRequest, emit. simpl.
  rewrite <- Heq, failedAttempts_S. unfold failedAttempt.
  rewrite Heq, Nat.ltb_irrefl, <- Heq.
  by rewrite Nat.add_succ_r, <- !app_assoc.
Qed.

(** *** The loop as a whole *)

(** However the service behaves, the loop entered after [j] failed
    attempts ends: either attempt [f + 1] leaves a usable response after
    [f] failures in all, or all [maxRetries] attempts fail. *)
Lemma whileLoop_shape sf s r m fuel :
  ∀ j resp,
    truthy_opt resp = false → j < maxRetries → maxRetries - j ≤ fuel →
    (∃ f resp1 m1,
        whileLoop fuel sf s r j resp (afterFailures s r j m) = Some (f, resp1, m1)
        ∧ j ≤ f < maxRetries ∧ truthy_opt resp1 = true
        ∧ attempt sf s r (afterFailures s r f m) = (resp1, m1)
        ∧ (∀ i, j ≤ i < f →
             truthy_opt (attempt sf s r (afterFailures s r i m)).1 = false)
        ∧ ((∃ d', m1 = updateReport
                          (pushSuccess (specFilePath sf)
                             (setDisk d' (noteRequest s r (afterFailures s r f m)))))
           ∨ m1 = updateReport
                    (pushSkipped (specFilePath sf)
                       (noteRequest s r (afterFailures s r f m)))))
    ∨ (∃ resp1,
          whileLoop fuel sf s r j resp (afterFailures s r j m)
          = Some (maxRetries, resp1,
                  updateReport (pushError (exhausted sf)
                                          (afterFailures s r maxRetries m)))
          ∧ truthy_opt resp1 = false
          ∧ ∀ i, j ≤ i < maxRetries →
              truthy_opt (attempt sf s r (afterFailures s r i m)).1 = false).
Proof.
  induction fuel as [|fuel IH]; intros j resp Hresp Hj Hfuel; [lia |].
  destruct (attempt_cases sf s r (afterFailures s r j m))
    as [(resp1 & Ha & Hf) | [(resp1 & d' & Ha & Hf) | (resp1 & Ha & Hf)]].
  - assert (∀ i, j ≤ i < S j →
              truthy_opt (attempt sf s r (afterFailures s r i m)).1 = false) as Hhere.
    { intros i Hi. replace i with j by lia. by rewrite Ha. }
    destruct (decide (S j < maxRetries)) as [Hlt|Hge].
    + rewrite (whileLoop_retry _ _ _ _ _ _ _ _ Hresp Hlt Ha Hf).
      rewrite afterFailures_retry by done.
      destruct (IH (S j) resp1 Hf Hlt ltac:(lia))
        as [(f & resp2 & m2 & Hw & Hrange & Ht & Hat & Hbefore & Hm2)
           | (resp2 & Hw & Ht & Hbefore)].
      * left. exists f, resp2, m2. split; [done |]. split; [lia |].
        do 2 (split; [done |]). split; [| done].
        intros i Hi. destruct (decide (i = j)) as [->|]; [apply Hhere; lia |].
        apply Hbefore. lia.
      * right. exists resp2. do 2 (split; [done |]).
        intros i Hi. destruct (decide (i = j)) as [->|]; [apply Hhere; lia |].
        apply Hbefore. lia.
    + assert (S j = maxRetries) as Heq by lia.
      rewrite (whileLoop_exhaust _ _ _ _ _ _ _ _ Hresp Heq Ha Hf).
      rewrite afterFailures_last by done.
      right. exists resp1. do 2 (split; [done |]).
      intros i Hi. apply Hhere. lia.
  - rewrite (whileLoop_done _ _ _ _ _ _ _ _ _ Hresp Hj Ha Hf).
    left. eexists j, resp1, _. split; [done |]. split; [lia |].
    do 2 (split; [done |]). split; [intros i Hi; lia |]. left. by exists d'.
  - rewrite (whileLoop_done _ _ _ _ _ _ _ _ _ Hresp Hj Ha Hf).
    left. eexists j, resp1, _. split; [done |]. split; [lia |].
    do 2 (split; [done |]). split; [intros i Hi; lia |]. by right.
Qed.

(** *** One record *)

(** Processing a record whose files can be read ends in one of the three
    ways of [RecordRun]; the attempts before the last all failed, and the
    last one, if the budget was not spent, left a usable response. *)
Lemma processSpecFile_run sf m s r :
  readContents sf (disk m) = Normal (s, r) →
  ∃ f o m',
    processSpecFile sf m = Some m'
    ∧ RecordRun sf s r m f o m'
    ∧ (∀ i, i < f → truthy_opt (attempt sf s r (afterFailures s r i m)).1 = false)
    ∧ (f < maxRetries →
       ∃ resp, attempt sf s r (afterFailures s r f m) = (resp, m')
               ∧ truthy_opt resp = true).
Proof.
  intros Hread. unfold Simplify.processSpecFile. rewrite Hread.
  destruct (whileLoop_shape sf s r m maxRetries 0 None)
    as [(f & resp1 & m1 & Hw & Hrange & Hf & Ha & Hbefore & Hm1)
       | (resp1 & Hw & Hf & Hbefore)];
    try done; try (unfold maxRetries; lia);
    rewrite afterFailures_0 in Hw.
  - rewrite Hw, Hf. simpl. exists f.
    assert (∀ i, i < f →
              truthy_opt (attempt sf s r (afterFailures s r i m)).1 = false) as Hb
      by (intros i Hi; apply Hbefore; lia).
    destruct Hm1 as [[d' ->] | ->].
    + eexists Success, _. split; [done |]. split; [constructor; lia |].
      split; [done |]. intros _. by exists resp1.
    + eexists Skipped, _. split; [done |]. split; [constructor; lia |].
      split; [done |]. intros _. by exists resp1.
  - rewrite Hw, Hf. simpl. eexists maxRetries, (Failed exhaustedMessage), _.
    split; [done |]. split; [constructor |].
    split; [intros i Hi; apply Hbefore; lia | lia].
Qed.

(** Processing a record always ends. *)
Lemma processSpecFile_total sf m : ∃ m', processSpecFile sf m = Some m'.
Proof.
  destruct (readContents sf (disk m)) as [[s r]|message] eqn:Hread.
  - destruct (processSpecFile_run sf m s r Hread) as (f & o & m' & H & _). eauto.
  - unfold Simplify.processSpecFile. rewrite Hread. eauto.
Qed.

Lemma requests_afterFailures s r f m :
  requests (afterFailures s r f m) = requests m + f.
Proof. reflexivity. Qed.

(** A run of replies that fail forces as many failed attempts. *)
Lemma failures_at_least sf m s r f k :
  (∀ i, i < k →
     reviewFails JSON_parse (sendToClaudeForReview (requests m + i) s r) = true) →
  (f < maxRetries →
   ∃ resp m', attempt sf s r (afterFailures s r f m) = (resp, m')
              ∧ truthy_opt resp = true) →
  k ≤ maxRetries → k ≤ f.
Proof.
  intros Hfail Hlast Hk. destruct (decide (k ≤ f)) as [|Hlt]; [done |].
  destruct Hlast as (resp & m' & Ha & Ht); [lia |].
  destruct (attempt_failing sf s r (afterFailures s r f m)) as (resp' & Ha' & Hf').
  { rewrite requests_afterFailures. apply Hfail. lia. }
  rewrite Ha in Ha'. congruence.
Qed.

(** An attempt that leaves a usable response is the last one. *)
Lemma failures_at_most sf m s r f k resp mk :
  (∀ i, i < f → truthy_opt (attempt sf s r (afterFailures s r i m)).1 = false) →
  attempt sf s r (afterFailures s r k m) = (resp, mk) → truthy_opt resp = true →
  f ≤ k.
Proof.
  intros Hbefore Ha Ht. destruct (decide (f ≤ k)) as [|Hlt]; [done |].
  specialize (Hbefore k ltac:(lia)). rewrite Ha in Hbefore. simpl in Hbefore.
  congruence.
Qed.

(** The outcome of a record after [k] failing replies and a reply whose
    attempt leaves a usable response. *)
Lemma processSpecFile_after_failures sf m s r k resp mk :
  readContents sf (disk m) = Normal (s, r) →
  k < maxRetries →
  (∀ i, i < k →
     reviewFails JSON_parse (sendToClaudeForReview (requests m + i) s r) = true) →
  attempt sf s r (afterFailures s r k m) = (resp, mk) → truthy_opt resp = true →
  processSpecFile sf m = Some mk.
Proof.
  intros Hread Hk Hfail Ha Ht.
  destruct (processSpecFile_run sf m s r Hread)
    as (f & o & m' & Hp & Hrun & Hbefore & Hlast).
  assert (f ≤ k) as Hle by (by eapply failures_at_most).
  assert (k ≤ f) as Hge.
  { eapply failures_at_least; [exact Hfail | | lia].
    intros Hf. destruct (Hlast Hf) as (resp' & Ha' & Ht'). eauto. }
  assert (f = k) as -> by lia.
  destruct (Hlast Hk) as (resp' & Ha' & _). rewrite Ha in Ha'.
  by injection Ha' as _ ->.
Qed.

(** The outcome of a record all of whose replies fail. *)
Lemma processSpecFile_all_fail sf m s r :
  readContents sf (disk m) = Normal (s, r) →
  (∀ i, i < maxRetries →
     reviewFails JSON_parse (sendToClaudeForReview (requests m + i) s r) = true) →
  processSpecFile sf m
  = Some (updateReport
            (pushError (exhausted sf)
               (updateReport
                  (pushError (exhausted sf) (afterFailures s r maxRetries m))))).
Proof.
  intros Hread Hfail.
  destruct (processSpecFile_run sf m s r Hread)
    as (f & o & m' & Hp & Hrun & Hbefore & Hlast).
  assert (maxRetries ≤ f) as Hge.
  { eapply failures_at_least; [exact Hfail | | lia].
    intros Hf. destruct (Hlast Hf) as (resp' & Ha' & Ht'). eauto. }
  inversion Hrun; subst; try lia. exact Hp.
Qed.

End SimplifyFacts.

(** ** What a run leaves in the log *)

Lemma buildReport_consistent (p : Simplify.ProcessedFiles) :
  reportConsistent (Simplify.buildReport p).
Proof. unfold reportConsistent, Simplify.buildReport. simpl. lia. Qed.

(** Closes a goal that says every report of a list of fresh snapshots is
    consistent. *)
Ltac reports_ok :=
  repeat (apply List.Forall_cons; [apply buildReport_consistent |]);
  apply List.Forall_nil.

Section LogFacts.

Import Simplify.

Lemma reports_app (l1 l2 : list Event) : reports (l1 ++ l2) = reports l1 ++ reports l2.
Proof.
  induction l1 as [|[| |rep] l1 IH]; simpl; [done | done | done |].
  by rewrite IH.
Qed.

Lemma delays_app (l1 l2 : list Event) : delays (l1 ++ l2) = delays l1 ++ delays l2.
Proof.
  induction l1 as [|[|ms|] l1 IH]; simpl; [done | done | | done].
  by rewrite IH.
Qed.

Lemma reports_failedAttempts s r f : reports (failedAttempts s r f) = [].
Proof.
  induction f as [|f IH]; [done |].
  rewrite failedAttempts_S, reports_app, IH. unfold failedAttempt.
  by destruct (S f <? maxRetries)%nat.
Qed.

Lemma delays_failedAttempts s r f :
  f ≤ maxRetries →
  delays (failedAttempts s r f)
  = (λ k, (Z.of_nat k * baseInterval)%Z) <$> seq 1 (f `min` 2).
Proof.
  intros Hf. destruct f as [|[|[|[|f]]]]; try reflexivity.
  unfold maxRetries in Hf. lia.
Qed.

(** The log of one record: the failed attempts, then a tail without any
    delay. *)
Lemma RecordRun_log sf s r m f o m' :
  RecordRun sf s r m f o m' →
  ∃ tail,
    log m' = log m ++ failedAttempts s r f ++ tail
    ∧ delays tail = []
    ∧ Forall reportConsistent (reports tail)
    ∧ (f < maxRetries → ∃ rep, tail = [Request s r; ReportWritten rep])
    ∧ (f = maxRetries → ∃ rep1 rep2, tail = [ReportWritten rep1; ReportWritten rep2]).
Proof.
  intros Hrun. inversion Hrun as [f' d' Hf | f' Hf |]; subst; simpl.
  - eexists [Request s r; ReportWritten _].
    split; [by rewrite <- !app_assoc |]. split; [done |].
    split; [simpl; reports_ok |].
    split; [eauto | lia].
  - eexists [Request s r; ReportWritten _].
    split; [by rewrite <- !app_assoc |]. split; [done |].
    split; [simpl; reports_ok |].
    split; [eauto | lia].
  - eexists [ReportWritten _; ReportWritten _].
    split; [by rewrite <- !app_assoc |]. split; [done |].
    split; [simpl; reports_ok |].
    split; [unfold maxRetries; lia | eauto].
Qed.

Lemma RecordRun_requests sf s r m f o m' :
  RecordRun sf s r m f o m' →
  requests m' = requests m + (if (f <? maxRetries)%nat then S f else f).
Proof.
  intros Hrun. inversion Hrun as [f' d' Hf | f' Hf |]; subst; simpl.
  - apply Nat.ltb_lt in Hf as ->. lia.
  - apply Nat.ltb_lt in Hf as ->. lia.
  - done.
Qed.

(** The entries a record adds to the three lists: one, except that a
    record whose retry budget is spent adds two. *)
Lemma RecordRun_entries sf s r m f o m' :
  RecordRun sf s r m f o m' →
  entriesAdded (processedFiles m) (processedFiles m')
  = (if (f <? maxRetries)%nat then 1 else 2)%Z.
Proof.
  intros Hrun. inversion Hrun as [f' d' Hf | f' Hf |]; subst;
    unfold entriesAdded; simpl; rewrite ?length_app; simpl.
  - apply Nat.ltb_lt in Hf as ->. lia.
  - apply Nat.ltb_lt in Hf as ->. lia.
  - lia.
Qed.

(** A record whose files cannot be read adds one error entry. *)
Lemma catchRecord_entries JSON_parse sendToClaudeForReview sf m message :
  readContents sf (disk m) = Throw message →
  ∃ m', Simplify.processSpecFile JSON_parse sendToClaudeForReview sf m = Some m'
        ∧ error (processedFiles m')
          = error (processedFiles m) ++ [mkErrorEntry (specFileName sf) message]
        ∧ entriesAdded (processedFiles m) (processedFiles m') = 1%Z
        ∧ requests m' = requests m.
Proof.
  intros Hread. unfold Simplify.processSpecFile. rewrite Hread.
  eexists. split; [reflexivity |]. simpl. split; [done |].
  split; [| done]. unfold entriesAdded. simpl. rewrite length_app. simpl. lia.
Qed.

End LogFacts.

(** ** The claims on the orchestrator *)

Section SimplifyClaims.

Import Simplify.

Variable JSON_parse : string → option Json.
Variable sendToClaudeForReview : nat → string → option string → option string.

Abbreviation processSpecFile :=
  (Simplify.processSpecFile JSON_parse sendToClaudeForReview).
Abbreviation forLoop := (Simplify.forLoop JSON_parse sendToClaudeForReview).

Implicit Types (m : Machine) (sf : SpecRecord) (s : string) (r : option string).

(** C2: when every attempt of a record fails (no reply text, or a text
    that [JSON.parse] rejects), the review service is called exactly
    three times, with the two backoff delays in between, and only then
    is the record reported as failed with the exhaustion message. *)
Theorem C2_three_requests_then_failed sf m s r :
  readContents sf (disk m) = Normal (s, r) →
  (∀ i, i < maxRetries →
     reviewFails JSON_parse (sendToClaudeForReview (requests m + i) s r) = true) →
  ∃ m' rep1 rep2,
    processSpecFile sf m = Some m'
    ∧ RecordRun sf s r m 3 (Failed exhaustedMessage) m'
    ∧ requests m' = requests m + 3
    ∧ log m' = log m ++ [Request s r; Delay 1000; Request s r; Delay 2000;
                         Request s r; ReportWritten rep1; ReportWritten rep2]
    ∧ success (processedFiles m') = success (processedFiles m)
    ∧ skipped (processedFiles m') = skipped (processedFiles m)
    ∧ error (processedFiles m')
      = error (processedFiles m) ++ [exhausted sf; exhausted sf]
    ∧ disk m' = disk m.
Proof.
  intros Hread Hfail.
  pose proof (processSpecFile_all_fail _ _ sf m s r Hread Hfail) as Hp.
  eexists _, _, _. split; [exact Hp |].
  split; [apply RunFailed |]. simpl.
  split; [done |].
  split; [by rewrite <- !app_assoc |].
  do 2 (split; [done |]). split; [by rewrite <- app_assoc | done].
Qed.

(** C4: a reply that parses as one JSON object without a usable
    [newSpecContent] ends the record at once: the path goes on the
    skipped list, nothing is written to disk, no error is recorded and
    no further request is sent, whatever number of failed attempts came
    before it. *)
Theorem C4_declined_is_skipped sf m s r k :
  readContents sf (disk m) = Normal (s, r) →
  k < maxRetries →
  (∀ i, i < k →
     reviewFails JSON_parse (sendToClaudeForReview (requests m + i) s r) = true) →
  declinesContent JSON_parse (sendToClaudeForReview (requests m + k) s r) = true →
  ∃ m',
    processSpecFile sf m = Some m'
    ∧ RecordRun sf s r m k Skipped m'
    ∧ skipped (processedFiles m') = skipped (processedFiles m) ++ [specFilePath sf]
    ∧ success (processedFiles m') = success (processedFiles m)
    ∧ error (processedFiles m') = error (processedFiles m)
    ∧ disk m' = disk m
    ∧ requests m' = requests m + k + 1.
Proof.
  intros Hread Hk Hfail Hdecl.
  destruct (attempt_declined JSON_parse sendToClaudeForReview sf s r
              (afterFailures s r k m)) as (resp & Ha & Ht).
  { by rewrite requests_afterFailures. }
  eexists. split.
  { eapply processSpecFile_after_failures; eauto. }
  split; [by apply RunSkipped |]. simpl.
  repeat split; try done. lia.
Qed.

(** C3, as the code has it: the text written for an accepted reply is
    [newSpecContent] itself when that already ends with a line
    terminator, and [newSpecContent] followed by one line terminator
    otherwise.  It therefore always ends with a line terminator, none is
    added to a text that has one, a text without one ends with exactly
    one, and [X\n] is written as [X\n]. *)
Theorem C3_newline_appended_when_missing sf m s r k text parsed c d' :
  readContents sf (disk m) = Normal (s, r) →
  k < maxRetries →
  (∀ i, i < k →
     reviewFails JSON_parse (sendToClaudeForReview (requests m + i) s r) = true) →
  sendToClaudeForReview (requests m + k) s r = Some text →
  truthy text = true →
  JSON_parse text = Some parsed →
  newSpecContentOf parsed = Normal (Some (JStr c)) →
  truthy c = true →
  writeFileSync (disk m) (specFilePath sf) (if endsWith c LF then c else c +:+ LF)
  = Normal d' →
  ∃ m' written,
    processSpecFile sf m = Some m'
    ∧ RecordRun sf s r m k Success m'
    ∧ content <$> (disk m' !! specFilePath sf) = Some written
    ∧ written = (if endsWith c LF then c else c +:+ LF)
    ∧ endsWith written LF = true
    ∧ (endsWith c LF = true → written = c)
    ∧ (endsWith c LF = false → written = c +:+ LF ∧ exactlyOneTrailingLF written)
    ∧ (c = "X" +:+ LF → written = "X" +:+ LF).
Proof.
  intros Hread Hk Hfail Hsend Ht Hparse Hnew Hc Hwrite.
  pose proof (attempt_accepted JSON_parse sendToClaudeForReview sf s r
                (afterFailures s r k m) text parsed c d') as Ha.
  rewrite requests_afterFailures in Ha.
  specialize (Ha Hsend Ht Hparse Hnew Hc Hwrite).
  eexists _, (if endsWith c LF then c else c +:+ LF). split.
  { eapply processSpecFile_after_failures; eauto. }
  split; [by apply RunSuccess |]. simpl.
  split; [by rewrite (writeFileSync_lookup _ _ _ _ Hwrite) |].
  split; [done |].
  split; [destruct (endsWith c LF) eqn:He; [done | apply endsWith_append] |].
  split; [by intros -> |].
  split.
  - intros He. rewrite He. split; [done |]. by apply exactlyOne_after_append.
  - by intros ->.
Qed.

(** C8: the log of a record whose files can be read is the log of [f]
    failed attempts followed by a tail without delay, for some
    [f <= maxRetries] that is at least the length of any initial run of
    failing replies.  The [k]-th failed attempt is followed by a delay of
    [k] base intervals for [k = 1, 2], each delay is followed by the next
    request, and the third failed attempt is followed by none. *)
Theorem C8_backoff_schedule sf m s r :
  readContents sf (disk m) = Normal (s, r) →
  ∃ m' f o tail,
    processSpecFile sf m = Some m'
    ∧ RecordRun sf s r m f o m'
    ∧ f ≤ maxRetries
    ∧ log m' = log m ++ failedAttempts s r f ++ tail
    ∧ delays tail = []
    ∧ (f < maxRetries → ∃ rep, tail = [Request s r; ReportWritten rep])
    ∧ (∀ k, k ≤ maxRetries →
         (∀ i, i < k →
            reviewFails JSON_parse (sendToClaudeForReview (requests m + i) s r) = true) →
         k ≤ f)
    ∧ delays (log m')
      = delays (log m) ++ ((λ k, (Z.of_nat k * baseInterval)%Z) <$> seq 1 (f `min` 2))
    ∧ failedAttempts s r 1 = [Request s r; Delay (1 * baseInterval)]
    ∧ failedAttempts s r 2
      = [Request s r; Delay (1 * baseInterval); Request s r; Delay (2 * baseInterval)]
    ∧ failedAttempts s r 3
      = [Request s r; Delay (1 * baseInterval); Request s r; Delay (2 * baseInterval);
         Request s r]
    ∧ (1 * baseInterval < 2 * baseInterval)%Z.
Proof.
  intros Hread.
  destruct (processSpecFile_run JSON_parse sendToClaudeForReview sf m s r Hread)
    as (f & o & m' & Hp & Hrun & Hbefore & Hlast).
  destruct (RecordRun_log sf s r m f o m' Hrun)
    as (tail & Hlog & Hdel & _ & Htail & _).
  assert (f ≤ maxRetries) as Hf by (inversion Hrun; subst; lia).
  exists m', f, o, tail. do 5 (split; [done |]).
  split; [exact Htail |]. split.
  { intros k Hk Hfail. eapply failures_at_least; [exact Hfail | | done].
    intros Hlt. destruct (Hlast Hlt) as (resp & Ha & Ht). eauto. }
  split.
  { rewrite Hlog, !delays_app, Hdel, app_nil_r.
    by rewrite delays_failedAttempts. }
  repeat split; reflexivity.
Qed.

(** *** The whole run *)

Lemma processSpecFile_reports sf m m' :
  processSpecFile sf m = Some m' →
  Forall reportConsistent (reports (log m)) →
  Forall reportConsistent (reports (log m')).
Proof.
  intros Hp Hinv.
  destruct (readContents sf (disk m)) as [[s r]|message] eqn:Hread.
  - destruct (processSpecFile_run JSON_parse sendToClaudeForReview sf m s r Hread)
      as (f & o & m'' & Hp' & Hrun & _).
    rewrite Hp in Hp'. injection Hp' as <-.
    destruct (RecordRun_log sf s r m f o m' Hrun) as (tail & Hlog & _ & Htail & _).
    rewrite Hlog, !reports_app, reports_failedAttempts. simpl.
    by apply Forall_app.
  - unfold Simplify.processSpecFile in Hp. rewrite Hread in Hp.
    injection Hp as <-. simpl. rewrite reports_app. simpl.
    apply Forall_app. split; [done |]. reports_ok.
Qed.

Lemma forLoop_reports result :
  ∀ m, Forall reportConsistent (reports (log m)) →
       ∃ m', forLoop result m = Some m'
             ∧ Forall reportConsistent (reports (log m')).
Proof.
  induction result as [|sf rest IH]; intros m Hinv; simpl; [eauto |].
  destruct (processSpecFile_total JSON_parse sendToClaudeForReview sf m) as [m1 Hp].
  rewrite Hp. apply IH. by eapply processSpecFile_reports.
Qed.

(** C6: the run always completes, and every snapshot it hands to the
    report writer, from the first to the last, has
    [totalProcessed = successfullyProcessed + skipped + errors] with all
    four counts non-negative. *)
Theorem C6_every_report_consistent
    (path_join : string → string → string) (path_dirname : string → string)
    (existsSync : string → bool)
    (startDir : string) (items : list (string * Dirent)) (d : gmap string FileData) :
  ∃ m',
    Simplify.main JSON_parse sendToClaudeForReview path_join path_dirname existsSync
      startDir items d = Some m'
    ∧ Forall reportConsistent (reports (log m')).
Proof.
  unfold Simplify.main. apply forLoop_reports. simpl. constructor.
Qed.

(** On a tree without specification files the run ends at once: no
    request is sent and the report writer is never called. *)
Lemma main_without_spec_files
    (path_join : string → string → string) (path_dirname : string → string)
    (existsSync : string → bool)
    (startDir : string) (items : list (string * Dirent)) (d : gmap string FileData) :
  (∀ dir item, FileIn path_join startDir items dir item → isSpecName item = false) →
  Simplify.main JSON_parse sendToClaudeForReview path_join path_dirname existsSync
    startDir items d = Some (initialMachine d).
Proof.
  intros Hnone. unfold Simplify.main.
  by rewrite (no_spec_files_no_records _ _ _ _ _ Hnone).
Qed.

End SimplifyClaims.

Lemma C2_three_requests_then_failed_witness :
  ∃ m',
    Simplify.processSpecFile Sample.parse Sample.silent Sample.oneSpecRecord
      (Simplify.initialMachine Sample.oneSpecDisk) = Some m'
    ∧ Simplify.requests m' = 3
    ∧ Simplify.error (Simplify.processedFiles m')
      = [exhausted Sample.oneSpecRecord; exhausted Sample.oneSpecRecord].
Proof.
  destruct (C2_three_requests_then_failed Sample.parse Sample.silent
              Sample.oneSpecRecord (Simplify.initialMachine Sample.oneSpecDisk)
              "test('a', () => {});" None)
    as (m' & rep1 & rep2 & Hp & _ & Hreq & _ & _ & _ & Herr & _).
  - vm_compute. reflexivity.
  - intros i _. reflexivity.
  - exists m'. split; [exact Hp |]. split; [exact Hreq | exact Herr].
Defined.

Lemma C4_declined_is_skipped_witness :
  ∃ m',
    Simplify.processSpecFile Sample.parse
      (Sample.scripted [None; Some Sample.declineReply]) Sample.oneSpecRecord
      (Simplify.initialMachine Sample.oneSpecDisk) = Some m'
    ∧ Simplify.skipped (Simplify.processedFiles m') = ["/p/a.spec.js"]
    ∧ Simplify.disk m' = Sample.oneSpecDisk
    ∧ Simplify.requests m' = 2.
Proof.
  destruct (C4_declined_is_skipped Sample.parse
              (Sample.scripted [None; Some Sample.declineReply])
              Sample.oneSpecRecord (Simplify.initialMachine Sample.oneSpecDisk)
              "test('a', () => {});" None 1)
    as (m' & Hp & _ & Hskip & _ & _ & Hdisk & Hreq).
  - vm_compute. reflexivity.
  - unfold maxRetries. lia.
  - intros i Hi. destruct i as [|i]; [reflexivity | lia].
  - vm_compute. reflexivity.
  - exists m'. split; [exact Hp |]. split; [exact Hskip |].
    split; [exact Hdisk | exact Hreq].
Defined.

(** The claim C3 as stated fails: the service returns
    [{"newSpecContent": "X\n\n"}] on the first attempt, the reply is
    accepted, and the text written ends with two line terminators. *)
Lemma C3_counterexample :
  ∃ m' written,
    Simplify.processSpecFile Sample.parse
      (Sample.scripted [Some (Sample.contentReply "X\n\n")]) Sample.pairedRecord
      (Simplify.initialMachine Sample.pairedDisk) = Some m'
    ∧ Simplify.success (Simplify.processedFiles m') = ["/p/a.spec.js"]
    ∧ content <$> (Simplify.disk m' !! "/p/a.spec.js") = Some written
    ∧ written = "X" +:+ LF +:+ LF
    ∧ ¬ exactlyOneTrailingLF written.
Proof.
  eexists _, _. split; [vm_compute; reflexivity |].
  split; [reflexivity |]. split; [vm_compute; reflexivity |].
  split; [reflexivity |]. intros [_ H]. vm_compute in H. discriminate H.
Qed.

Lemma C3_newline_appended_when_missing_witness :
  ∃ m',
    Simplify.processSpecFile Sample.parse
      (Sample.scripted [Some (Sample.contentReply "X\n")]) Sample.pairedRecord
      (Simplify.initialMachine Sample.pairedDisk) = Some m'
    ∧ content <$> (Simplify.disk m' !! "/p/a.spec.js") = Some ("X" +:+ LF).
Proof.
  destruct (C3_newline_appended_when_missing Sample.parse
              (Sample.scripted [Some (Sample.contentReply "X\n")])
              Sample.pairedRecord (Simplify.initialMachine Sample.pairedDisk)
              "test('a', () => {});" (Some "export const a = 1;") 0
              (Sample.contentReply "X\n")
              (JObj [("newSpecContent", JStr ("X" +:+ LF))])
              ("X" +:+ LF)
              (<["/p/a.spec.js" := mkFileData ("X" +:+ LF) true]> Sample.pairedDisk))
    as (m' & written & Hp & _ & Hdisk & _ & _ & _ & _ & HX).
  - vm_compute. reflexivity.
  - unfold maxRetries. lia.
  - intros i Hi. lia.
  - reflexivity.
  - reflexivity.
  - vm_compute. reflexivity.
  - reflexivity.
  - reflexivity.
  - vm_compute. reflexivity.
  - exists m'. split; [exact Hp |]. rewrite (HX eq_refl) in Hdisk. exact Hdisk.
Defined.

Lemma C8_backoff_schedule_witness :
  ∃ m',
    Simplify.processSpecFile Sample.parse
      (Sample.scripted [Some "Sorry, here is the file"; None;
                        Some (Sample.contentReply "X\n")])
      Sample.oneSpecRecord (Simplify.initialMachine Sample.oneSpecDisk) = Some m'
    ∧ delays (Simplify.log m') = [1000; 2000]%Z.
Proof.
  destruct (C8_backoff_schedule Sample.parse
              (Sample.scripted [Some "Sorry, here is the file"; None;
                                Some (Sample.contentReply "X\n")])
              Sample.oneSpecRecord (Simplify.initialMachine Sample.oneSpecDisk)
              "test('a', () => {});" None)
    as (m' & f & o & tail & Hp & _).
  - vm_compute. reflexivity.
  - exists m'. split; [exact Hp |].
    vm_compute in Hp. injection Hp as <-. reflexivity.
Defined.

(** C1 fails on the code: a single record all of whose attempts fail is
    entered twice in the error list, once by the last pass through the
    retry loop and once more by the test that follows the loop, so the
    report of a run over one record counts two processed files. *)
Theorem C1_exhausted_record_is_recorded_twice :
  let existsSync := Sample.existsAmong ["/p/a.spec.js"] in
  length (findSpecFilesAndRelated Sample.join Sample.dirname existsSync "/p"
            Sample.oneSpecTree []) = 1
  ∧ ∃ m',
      Simplify.main Sample.parse Sample.silent Sample.join Sample.dirname existsSync
        "/p" Sample.oneSpecTree Sample.oneSpecDisk = Some m'
      ∧ Simplify.error (Simplify.processedFiles m')
        = [mkErrorEntry "a.spec.js" exhaustedMessage;
           mkErrorEntry "a.spec.js" exhaustedMessage]
      ∧ entriesAdded (Simplify.mkProcessedFiles [] [] []) (Simplify.processedFiles m')
        = 2%Z
      ∧ Simplify.totalProcessed <$> reports (Simplify.log m') = [1; 2]%Z.
Proof.
  simpl. split; [reflexivity |].
  eexists. split; [vm_compute; reflexivity |].
  split; [reflexivity |]. split; reflexivity.
Qed.

(** ** The legacy orchestrator *)

Section LegacyFacts.

Variable JSON_parse : string → option Json.
Variable sendToClaudeForReview : nat → string → option string → option string.

(** The reading phase of a paired record always throws. *)
Lemma legacy_readContents_paired (sf : SpecRecord) (d : gmap string FileData) :
  truthy_opt (relatedFilePath sf) = true →
  ∃ message,
    Legacy.readContents sf d = Throw message
    ∧ ∀ specContent p relatedContent,
        readFileSync d (specFilePath sf) = Normal specContent →
        relatedFilePath sf = Some p →
        readFileSync d p = Normal relatedContent →
        message = Legacy.constAssignmentMessage.
Proof.
  intros Hpaired. unfold Legacy.readContents.
  destruct (readFileSync d (specFilePath sf)) as [specContent|message].
  - destruct (relatedFilePath sf) as [p|]; [| done]. simpl in Hpaired.
    rewrite Hpaired.
    destruct (readFileSync d p) as [relatedContent|message] eqn:Hrel.
    + exists Legacy.constAssignmentMessage. split; [done |]. done.
    + exists message. split; [done |].
      intros ? ? ? _ [= <-]. by rewrite Hrel.
  - exists message. split; [done |]. done.
Qed.

(** C9: the legacy orchestrator records every record that has a related
    file as failed, with exactly one error entry, without sending any
    request; when both files can be read, the error is the one raised by
    the assignment to the [const] binding [sanitizedRelatedContent]. *)
Theorem C9_legacy_paired_record_fails (sf : SpecRecord) (m : Legacy.Machine) :
  truthy_opt (relatedFilePath sf) = true →
  ∃ message m',
    Legacy.processSpecFile JSON_parse sendToClaudeForReview sf m = Some m'
    ∧ Legacy.error (Legacy.processedFiles m')
      = Legacy.error (Legacy.processedFiles m)
        ++ [mkErrorEntry (specFileName sf) message]
    ∧ Legacy.success (Legacy.processedFiles m')
      = Legacy.success (Legacy.processedFiles m)
    ∧ Legacy.requests m' = Legacy.requests m
    ∧ Legacy.log m' = Legacy.log m
    ∧ Legacy.disk m' = Legacy.disk m
    ∧ ∀ specContent p relatedContent,
        readFileSync (Legacy.disk m) (specFilePath sf) = Normal specContent →
        relatedFilePath sf = Some p →
        readFileSync (Legacy.disk m) p = Normal relatedContent →
        message = Legacy.constAssignmentMessage.
Proof.
  intros Hpaired.
  destruct (legacy_readContents_paired sf (Legacy.disk m) Hpaired)
    as (message & Hread & Hconst).
  exists message. eexists. unfold Legacy.processSpecFile. rewrite Hread.
  split; [reflexivity |]. simpl. repeat split; try done.
Qed.

(** With nothing to process the legacy run still writes its report, with
    all counts zero. *)
Lemma legacy_main_without_spec_files
    (path_join : string → string → string) (path_dirname : string → string)
    (existsSync : string → bool)
    (startDir : string) (items : list (string * Dirent)) (d : gmap string FileData) :
  (∀ dir item, FileIn path_join startDir items dir item → isSpecName item = false) →
  ∃ m',
    Legacy.main JSON_parse sendToClaudeForReview path_join path_dirname existsSync
      startDir items d = Some m'
    ∧ Legacy.log m' = [Legacy.ReportWritten (Legacy.mkReport 0 0 0 [] [])].
Proof.
  intros Hnone. unfold Legacy.main.
  rewrite (no_spec_files_no_records _ _ _ _ _ Hnone). simpl. eauto.
Qed.

End LegacyFacts.

Lemma C9_legacy_paired_record_fails_witness :
  ∃ m',
    Legacy.processSpecFile Sample.parse
      (Sample.scripted [Some (Sample.contentReply "X\n")]) Sample.pairedRecord
      (Legacy.initialMachine Sample.pairedDisk) = Some m'
    ∧ Legacy.error (Legacy.processedFiles m')
      = [mkErrorEntry "a.spec.js" "Assignment to constant variable."]
    ∧ Legacy.requests m' = 0.
Proof.
  destruct (C9_legacy_paired_record_fails Sample.parse
              (Sample.scripted [Some (Sample.contentReply "X\n")])
              Sample.pairedRecord (Legacy.initialMachine Sample.pairedDisk))
    as (message & m' & Hp & Herr & _ & Hreq & _ & _ & Hconst).
  - reflexivity.
  - exists m'. split; [exact Hp |]. split; [| exact Hreq].
    rewrite Herr.
    rewrite (Hconst "test('a', () => {});" "/p/a.js" "export const a = 1;").
    + reflexivity.
    + vm_compute. reflexivity.
    + reflexivity.
    + vm_compute. reflexivity.
Defined.

(** In the legacy orchestrator a declined reply leaves no trace at all: there
    is no skipped list, and neither of the two lists grows. *)
Lemma legacy_declined_reply_leaves_no_entry :
  Legacy.processedFiles
    <$> Legacy.processSpecFile Sample.parse (Sample.scripted [Some Sample.declineReply])
          Sample.oneSpecRecord (Legacy.initialMachine Sample.oneSpecDisk)
  = Some (Legacy.mkProcessedFiles [] []).
Proof. vm_compute. reflexivity. Qed.

(** C7 fails on the code in its second half.  On a tree without any
    specification file discovery returns the empty sequence, but the run of
    the orchestrator then ends without having written any report: the
    report writer is only called once a record has reached an outcome.  The
    legacy orchestrator writes the report with all counts zero. *)
Theorem C7_empty_run_writes_no_report :
  let existsSync := Sample.existsAmong [] in
  findSpecFilesAndRelated Sample.join Sample.dirname existsSync "/p"
    Sample.plainTree [] = []
  ∧ (∃ m',
        Simplify.main Sample.parse Sample.silent Sample.join Sample.dirname existsSync
          "/p" Sample.plainTree ∅ = Some m'
        ∧ Simplify.processedFiles m' = Simplify.mkProcessedFiles [] [] []
        ∧ reportAllZero (Simplify.buildReport (Simplify.processedFiles m'))
        ∧ reports (Simplify.log m') = [])
  ∧ (∃ m',
        Legacy.main Sample.parse Sample.silent Sample.join Sample.dirname existsSync
          "/p" Sample.plainTree ∅ = Some m'
        ∧ Legacy.log m' = [Legacy.ReportWritten (Legacy.mkReport 0 0 0 [] [])]).
Proof.
  simpl. split; [reflexivity |]. split.
  - eexists. split; [vm_compute; reflexivity |].
    split; [reflexivity |]. split; [| reflexivity].
    repeat split.
  - eexists. split; [vm_compute; reflexivity |]. reflexivity.
Qed.

(** * Further properties of the code *)

(** ** Names *)

Lemma occurrences_append_ge (pat w t : string) :
  occurrences pat t ≤ occurrences pat (w +:+ t).
Proof.
  induction w as [|c w IH]; [done |].
  rewrite append_cons, occurrences_cons. lia.
Qed.

Lemma isSpecName_has_marker (item : string) :
  isSpecName item = true → 1 ≤ occurrences ".spec." item.
Proof.
  unfold isSpecName. rewrite !orb_true_iff.
  intros [[H|H]|H]; apply endsWith_inv in H as [w ->];
    (etransitivity; [| apply occurrences_append_ge]); vm_compute; lia.
Qed.

Lemma replace_length (s pat rep : string) :
  1 ≤ occurrences pat s →
  String.length (replace s pat rep) + String.length pat
  = String.length s + String.length rep.
Proof.
  induction s as [|c s IH]; intros Hocc.
  - destruct pat as [|p pat]; [| simpl in Hocc; lia].
    change (replace "" "" rep) with (rep +:+ ""). rewrite length_append. simpl. lia.
  - rewrite replace_cons. rewrite occurrences_cons in Hocc.
    destruct (startsWith (String c s) pat) eqn:Hst.
    + apply startsWith_inv in Hst. rewrite Hst at 2.
      rewrite !length_append. lia.
    + simpl. specialize (IH ltac:(lia)). lia.
Qed.

Lemma derived_name_length (item : string) :
  isSpecName item = true →
  String.length (deriveRelatedName item) + 5 = String.length item.
Proof.
  intros Hspec. apply isSpecName_has_marker in Hspec.
  pose proof (replace_length item ".spec." "." Hspec) as Hlen.
  unfold deriveRelatedName. simpl in Hlen. lia.
Qed.

Lemma derived_name_differs (item : string) :
  isSpecName item = true → deriveRelatedName item ≠ item.
Proof.
  intros Hspec%derived_name_length Heq. rewrite Heq in Hspec. lia.
Qed.

(** X1: The derived name of a specification file is five characters shorter
    than its name, so it is never the name itself. *)
Theorem derived_name_is_shorter (item : string) :
  isSpecName item = true →
  String.length (deriveRelatedName item) + 5 = String.length item
  ∧ deriveRelatedName item ≠ item.
Proof.
  intros Hspec. split; [by apply derived_name_length | by apply derived_name_differs].
Qed.

Lemma derived_name_is_shorter_witness :
  String.length (deriveRelatedName "widget.spec.vue") + 5
  = String.length "widget.spec.vue".
Proof. apply (derived_name_is_shorter "widget.spec.vue"). reflexivity. Defined.

(** A name without the marker is its own derived name. *)
Lemma replace_absent (s pat rep : string) :
  occurrences pat s = 0 → replace s pat rep = s.
Proof.
  induction s as [|c s IH]; intros Hocc.
  - destruct pat; [simpl in Hocc; lia | reflexivity].
  - rewrite replace_cons. rewrite occurrences_cons in Hocc.
    destruct (startsWith (String c s) pat); [lia |].
    f_equal. apply IH. lia.
Qed.

Lemma dashStamp_length (stamp : string) :
  String.length (dashStamp stamp) = String.length stamp.
Proof. induction stamp as [|c rest IH]; simpl; [done | by rewrite IH]. Qed.

Lemma dashStamp_clean (stamp : string) (c : ascii) :
  c = ":"%char ∨ c = "."%char →
  occurrences (String c "") (dashStamp stamp) = 0.
Proof.
  intros Hc. induction stamp as [|x rest IH]; [reflexivity |].
  simpl dashStamp. rewrite occurrences_cons, IH. simpl.
  destruct (Ascii.eqb x ":" || Ascii.eqb x ".") eqn:Hx.
  - by destruct Hc as [-> | ->].
  - apply orb_false_elim in Hx as [H1 H2]. rewrite andb_true_r.
    destruct Hc as [-> | ->]; [by rewrite H1 | by rewrite H2].
Qed.

Lemma endsWith_json_not (w suf : string) :
  ".json" ∉ properSuffixes suf → String.length suf > 5 →
  endsWith (w +:+ ".json") suf = false.
Proof.
  intros Hnot Hlen. destruct (endsWith (w +:+ ".json") suf) eqn:He; [| done].
  apply endsWith_inv in He as [x Hx].
  destruct (suffix_comparable _ _ _ _ Hx) as [[y Hy]|(c & z & Hz)].
  - apply (f_equal String.length) in Hy. rewrite length_append in Hy.
    simpl in Hy. lia.
  - apply properSuffixes_complete in Hz. done.
Qed.

(** X2: The name of the report file holds the time stamp with every colon and
    period replaced by a dash, character for character, and is never the
    name of a specification file: a report left in the scanned directory
    is not picked up by a later discovery. *)
Theorem report_name_is_safe (iso : string) :
  String.length (dashStamp iso) = String.length iso
  ∧ occurrences ":" (dashStamp iso) = 0
  ∧ occurrences "." (dashStamp iso) = 0
  ∧ endsWith (reportFileName iso) ".json" = true
  ∧ isSpecName (reportFileName iso) = false.
Proof.
  split; [apply dashStamp_length |].
  split; [apply dashStamp_clean; by left |].
  split; [apply dashStamp_clean; by right |].
  unfold reportFileName. rewrite <- append_assoc.
  split; [apply endsWith_append |].
  unfold isSpecName.
  rewrite !endsWith_json_not; try done; try (simpl; lia);
    by apply (bool_decide_unpack _).
Qed.

(** ** Sanitizing *)

Lemma sanitize_append (a b : string) :
  sanitize (a +:+ b) = sanitize a +:+ sanitize b.
Proof.
  induction a as [|c a IH]; [done |].
  rewrite append_cons. simpl. rewrite IH. by destruct (printable c).
Qed.

Lemma sanitize_allPrintable (s : string) : allPrintable (sanitize s) = true.
Proof.
  induction s as [|c s IH]; [done |]. simpl.
  destruct (printable c) eqn:Hc; [| done]. simpl. by rewrite Hc, IH.
Qed.

Lemma sanitize_fixes_printable (s : string) :
  allPrintable s = true → sanitize s = s.
Proof.
  induction s as [|c s IH]; [done |]. simpl.
  intros [Hc Hs]%andb_prop. rewrite Hc. f_equal. by apply IH.
Qed.

Lemma sanitize_length (s : string) :
  String.length (sanitize s) ≤ String.length s.
Proof.
  induction s as [|c s IH]; [done |]. simpl.
  destruct (printable c); simpl; lia.
Qed.

(** X3: What is sent in place of a file content holds printable ASCII only, is
    never longer than the content, and sanitizing it again changes
    nothing. *)
Theorem sanitize_is_a_projection (s : string) :
  allPrintable (sanitize s) = true
  ∧ sanitize (sanitize s) = sanitize s
  ∧ String.length (sanitize s) ≤ String.length s.
Proof.
  split; [apply sanitize_allPrintable |].
  split; [apply sanitize_fixes_printable, sanitize_allPrintable |].
  apply sanitize_length.
Qed.

(** X4: A content made of printable ASCII only is sent as it is. *)
Theorem sanitize_keeps_printable_text (s : string) :
  allPrintable s = true → sanitize s = s.
Proof. apply sanitize_fixes_printable. Qed.

Lemma sanitize_keeps_printable_text_witness :
  sanitize "test('a', () => {});" = "test('a', () => {});".
Proof. apply sanitize_keeps_printable_text. reflexivity. Defined.

(** X5: Sanitizing works piece by piece and removes every line terminator: the
    lines of a file are sent joined together, with nothing between them. *)
Theorem sanitize_joins_lines (a b : string) :
  sanitize (a +:+ b) = sanitize a +:+ sanitize b
  ∧ sanitize (a +:+ LF +:+ b) = sanitize a +:+ sanitize b
  ∧ occurrences LF (sanitize a) = 0.
Proof.
  split; [apply sanitize_append |].
  split; [by rewrite !sanitize_append |].
  induction a as [|c a IH]; [done |]. simpl.
  destruct (printable c) eqn:Hc; [| done].
  rewrite occurrences_cons, IH. simpl.
  destruct (Ascii.eqb_spec c (Ascii false true false true false false false false))
    as [-> | _]; [done | done].
Qed.

(** ** Discovery: what the result is made of *)

Section DiscoveryShape.

Variable path_join : string → string → string.
Variable path_dirname : string → string.
Variable existsSync : string → bool.

Abbreviation discover :=
  (findSpecFilesAndRelated path_join path_dirname existsSync).

Lemma resolveRelated_exists dir item p :
  resolveRelated path_join path_dirname existsSync dir item = Some p →
  existsSync p = true.
Proof.
  unfold resolveRelated.
  destruct (existsSync (path_join dir (deriveRelatedName item))) eqn:Hhere.
  - by intros [= <-].
  - destruct (existsSync (path_join (path_dirname dir) (deriveRelatedName item)))
      eqn:Habove; simpl; [by intros [= <-] | done].
Qed.

(** X6: No dangling pairing: the related path of every record of the result
    is a path that [fs.existsSync] accepted during the traversal. *)
Theorem discovery_no_dangling_pairing startDir items :
  Forall (λ r, ∀ p, relatedFilePath r = Some p → existsSync p = true)
         (findSpecFilesAndRelated path_join path_dirname existsSync startDir items []).
Proof.
  apply Forall_forall. intros r Hr p Hp.
  apply findSpecFilesAndRelated_records in Hr as (d & i & _ & _ & ->).
  simpl in Hp. by eapply resolveRelated_exists.
Qed.

(** X7: Every record of the result names a specification file; its related
    name is present exactly when its related path is truthy, is then the
    derived name, and is never the name of the specification file
    itself. *)
Theorem discovery_records_well_formed startDir items :
  Forall (λ r,
            isSpecName (specFileName r) = true
            ∧ relatedFileName r
              = (if truthy_opt (relatedFilePath r)
                 then Some (deriveRelatedName (specFileName r)) else None)
            ∧ relatedFileName r ≠ Some (specFileName r))
         (findSpecFilesAndRelated path_join path_dirname existsSync startDir items []).
Proof.
  apply Forall_forall. intros r Hr.
  apply findSpecFilesAndRelated_records in Hr as (d & i & _ & Hspec & ->).
  simpl. split; [done |]. split; [done |].
  destruct (truthy_opt _); [| done].
  intros [= Heq]. by apply derived_name_differs in Hspec.
Qed.

Lemma discover_pushes dir items filesList :
  discover dir items filesList = filesList ++ discover dir items [].
Proof.
  rewrite findSpecFilesAndRelated_unfold.
  by rewrite (findSpecFilesAndRelated_unfold _ _ _ dir items []).
Qed.

(** X8: Discovery only ever pushes: the entries already on [filesList] stay in
    place, in their order, and the new records follow them. *)
Theorem discovery_only_appends dir items filesList :
  let found :=
    findSpecFilesAndRelated path_join path_dirname existsSync dir items filesList in
  found
  = filesList ++ findSpecFilesAndRelated path_join path_dirname existsSync dir items []
  ∧ length filesList ≤ length found
  ∧ ∀ i r, filesList !! i = Some r → found !! i = Some r.
Proof.
  simpl. rewrite discover_pushes. split; [done |].
  split; [rewrite length_app; lia |].
  intros i r Hi. by apply lookup_app_l_Some.
Qed.

(** X9: The records of a listing are the records of its items, concatenated in
    listing order; in particular the records of a directory come out
    together, between those of the items before it and after it. *)
Theorem discovery_follows_listing_order dir items1 items2 :
  let find := findSpecFilesAndRelated path_join path_dirname existsSync in
  find dir (items1 ++ items2) [] = find dir items1 [] ++ find dir items2 []
  ∧ ∀ sub subitems,
      find dir (items1 ++ (sub, Directory subitems) :: items2) []
      = find dir items1 [] ++ find (path_join dir sub) subitems []
        ++ find dir items2 [].
Proof.
  simpl.
  assert (∀ l1 l2, discover dir (l1 ++ l2) [] = discover dir l1 [] ++ discover dir l2 [])
    as Happ.
  { intros l1 l2. unfold findSpecFilesAndRelated. rewrite fold_left_app.
    apply discover_pushes. }
  split; [apply Happ |].
  intros sub subitems. rewrite Happ. f_equal.
  change ((sub, Directory subitems) :: items2)
    with ([(sub, Directory subitems)] ++ items2).
  rewrite Happ. f_equal.
Qed.

Lemma listing_length dir (items : list (string * Dirent)) :
  Forall (λ e : string * Dirent,
            ∀ dir' item,
              length (visitItem path_join path_dirname existsSync dir' item e.2 [])
              = specFilesBelow item e.2) items →
  length (discover dir items []) = specFilesIn items.
Proof.
  intros Hall. rewrite findSpecFilesAndRelated_unfold. unfold specFilesIn.
  rewrite app_nil_l.
  induction Hall as [|[i d] items Hd _ IH]; [done |].
  rewrite fmap_cons.
  change (mjoin (?x :: ?l)) with (x ++ mjoin l).
  rewrite length_app, IH.
  change (sum_list_with ?f ((i, d) :: items))
    with (f (i, d) + sum_list_with f items).
  f_equal. apply Hd.
Qed.

Lemma visitItem_length (d : Dirent) :
  ∀ dir item,
    length (visitItem path_join path_dirname existsSync dir item d [])
    = specFilesBelow item d.
Proof.
  induction d as [|items IH] using Dirent_tree_ind; intros dir item.
  - simpl. by destruct (isSpecName item).
  - rewrite visitItem_Directory. by apply listing_length.
Qed.

(** X10: Every specification file of the tree gives one record, and nothing
    else gives any: the result is as long as the tree has specification
    files. *)
Theorem discovery_one_record_per_spec_file startDir items :
  length (findSpecFilesAndRelated path_join path_dirname existsSync startDir items [])
  = specFilesIn items.
Proof.
  apply listing_length, Forall_forall. intros [i d] _ dir' item.
  apply visitItem_length.
Qed.

End DiscoveryShape.

(** ** The run of the orchestrator *)

Section RunFacts.

Import Simplify.

Variable JSON_parse : string → option Json.
Variable sendToClaudeForReview : nat → string → option string → option string.

Abbreviation attempt := (Simplify.attempt JSON_parse sendToClaudeForReview).
Abbreviation whileLoop := (Simplify.whileLoop JSON_parse sendToClaudeForReview).
Abbreviation processSpecFile :=
  (Simplify.processSpecFile JSON_parse sendToClaudeForReview).
Abbreviation forLoop := (Simplify.forLoop JSON_parse sendToClaudeForReview).

Implicit Types (m : Machine) (sf : SpecRecord) (s : string) (r : option string).

Lemma terminated_endsWith c : endsWith (terminated c) LF = true.
Proof.
  unfold terminated. destruct (endsWith c LF) eqn:He; [done |].
  apply endsWith_append.
Qed.

(** What one pass through the loop body does, by the kind of reply. *)
Lemma attempt_outcomes sf s r m :
  let reply := sendToClaudeForReview (requests m) s r in
  let result := attempt sf s r m in
  (truthy_opt result.1 = false ∧ result.2 = noteRequest s r m)
  ∨ (truthy_opt result.1 = true
     ∧ ∃ c, offersContent JSON_parse reply = true
            ∧ (∀ f, disk m !! specFilePath sf = Some f → writable f = true)
            ∧ result.2
              = updateReport
                  (pushSuccess (specFilePath sf)
                     (setDisk (<[specFilePath sf := mkFileData (terminated c) true]>
                                 (disk m))
                              (noteRequest s r m))))
  ∨ (truthy_opt result.1 = true
     ∧ offersNothing JSON_parse reply = true
     ∧ result.2 = updateReport (pushSkipped (specFilePath sf) (noteRequest s r m))).
Proof.
  unfold Simplify.attempt, offersContent, offersNothing. simpl.
  destruct (sendToClaudeForReview (requests m) s r) as [text|]; [| by left].
  destruct (truthy text) eqn:Ht; [| left; by simpl; rewrite Ht].
  destruct (JSON_parse text) as [parsed|]; [| by left].
  destruct (newSpecContentOf parsed) as [v|]; [| by left].
  destruct (truthyValue v) eqn:Hv.
  - destruct v as [[| | |c| |]|]; try by left.
    unfold writeFileSync.
    destruct (disk m !! specFilePath sf) as [f|] eqn:Hf;
      [destruct (writable f) eqn:Hw; [| by left] |].
    + right; left. simpl. rewrite Ht. split; [done |]. exists c.
      split; [done |]. split; [by intros ? [= <-] | done].
    + right; left. simpl. rewrite Ht. split; [done |]. exists c.
      split; [done |]. split; [done | done].
  - right; right. simpl. by rewrite Ht.
Qed.

Lemma attempt_offers_nothing sf s r m :
  offersNothing JSON_parse (sendToClaudeForReview (requests m) s r) = true →
  ∃ resp, attempt sf s r m
          = (resp, updateReport (pushSkipped (specFilePath sf) (noteRequest s r m)))
          ∧ truthy_opt resp = true.
Proof.
  unfold offersNothing, Simplify.attempt.
  destruct (sendToClaudeForReview (requests m) s r) as [text|]; [| done].
  destruct (truthy text) eqn:Ht; simpl; [| done].
  destruct (JSON_parse text) as [parsed|]; [| done].
  destruct (newSpecContentOf parsed) as [v|]; [| done].
  intros Hv%negb_true_iff. rewrite Hv. exists (Some text). by simpl.
Qed.

Lemma attempt_offers_unusable sf s r m :
  offersUnusable JSON_parse (sendToClaudeForReview (requests m) s r) = true →
  truthy_opt (attempt sf s r m).1 = false.
Proof.
  unfold offersUnusable, Simplify.attempt.
  destruct (sendToClaudeForReview (requests m) s r) as [text|]; [| done].
  destruct (truthy text) eqn:Ht; simpl; [| done].
  destruct (JSON_parse text) as [parsed|]; [| done].
  destruct (newSpecContentOf parsed) as [v|]; [| done].
  destruct v as [[| | |c| |]|]; try done; by intros ->.
Qed.

Lemma attempt_write_denied sf s r m f :
  offersContent JSON_parse (sendToClaudeForReview (requests m) s r) = true →
  disk m !! specFilePath sf = Some f → writable f = false →
  truthy_opt (attempt sf s r m).1 = false.
Proof.
  unfold offersContent, Simplify.attempt.
  destruct (sendToClaudeForReview (requests m) s r) as [text|]; [| done].
  destruct (truthy text) eqn:Ht; simpl; [| done].
  destruct (JSON_parse text) as [parsed|]; [| done].
  destruct (newSpecContentOf parsed) as [v|]; [| done].
  destruct v as [[| | |c| |]|]; try done.
  intros Hc Hf Hw. simpl. rewrite Hc. unfold writeFileSync. simpl.
  by rewrite Hf, Hw.
Qed.

(** *** Invariants *)

(** A property of the machine that every step of the loop keeps is kept
    by the loop. *)
Lemma whileLoop_preserves (P : Machine → Prop) sf s r :
  (∀ m0, P m0 → P (attempt sf s r m0).2) →
  (∀ ms m0, P m0 → P (emit (Delay ms) m0)) →
  (∀ e m0, P m0 → P (updateReport (pushError e m0))) →
  ∀ fuel retries resp m res,
    P m → whileLoop fuel sf s r retries resp m = Some res → P res.2.
Proof.
  intros Hatt Hdelay Herr.
  induction fuel as [|fuel IH]; intros retries resp m res HP Hw.
  - simpl in Hw.
    destruct ((retries <? maxRetries)%nat && negb (truthy_opt resp)); [done |].
    by injection Hw as <-.
  - rewrite whileLoop_unfold in Hw.
    destruct ((retries <? maxRetries)%nat && negb (truthy_opt resp));
      [| by injection Hw as <-].
    pose proof (Hatt m HP) as HP1.
    destruct (Simplify.attempt JSON_parse sendToClaudeForReview sf s r m)
      as [resp1 m1].
    simpl in HP1.
    destruct (negb (truthy_opt resp1)); [| by eapply IH].
    destruct (S retries <? maxRetries)%nat; eapply IH; try exact Hw; eauto.
Qed.

Lemma processSpecFile_preserves (P : Machine → Prop) sf m m' :
  (∀ s r m0, readContents sf (disk m) = Normal (s, r) →
             P m0 → P (attempt sf s r m0).2) →
  (∀ ms m0, P m0 → P (emit (Delay ms) m0)) →
  (∀ e m0, P m0 → P (updateReport (pushError e m0))) →
  P m → processSpecFile sf m = Some m' → P m'.
Proof.
  intros Hatt Hdelay Herr HP Hp. unfold Simplify.processSpecFile in Hp.
  destruct (readContents sf (disk m)) as [[s r]|message] eqn:Hread.
  - destruct (Simplify.whileLoop _ _ _ _ _ _ _ _ _) as [[[n resp] m1]|] eqn:Hw;
      [| done].
    pose proof (whileLoop_preserves P sf s r (λ m0, Hatt s r m0 eq_refl)
                  Hdelay Herr _ _ _ _ _ HP Hw) as HP1.
    simpl in HP1.
    destruct (negb (truthy_opt resp)); injection Hp as <-; [by apply Herr | done].
  - injection Hp as <-. by apply Herr.
Qed.

Lemma forLoop_total result : ∀ m, ∃ m', forLoop result m = Some m'.
Proof.
  induction result as [|sf rest IH]; intros m; simpl; [eauto |].
  destruct (processSpecFile_total JSON_parse sendToClaudeForReview sf m) as [m1 ->].
  apply IH.
Qed.

Lemma forLoop_preserves (P : Machine → Prop) result :
  (∀ sf m0 m1, sf ∈ result → P m0 → processSpecFile sf m0 = Some m1 → P m1) →
  ∀ m m', P m → forLoop result m = Some m' → P m'.
Proof.
  induction result as [|sf rest IH]; intros Hstep m m' HP Hf; simpl in Hf.
  - by injection Hf as <-.
  - destruct (Simplify.processSpecFile _ _ sf m) as [m1|] eqn:Hp; [| done].
    eapply IH; [| | exact Hf].
    + intros sf' m0 m2 Hin. apply Hstep. by apply list_elem_of_further.
    + eapply Hstep; [apply list_elem_of_here | exact HP | exact Hp].
Qed.

(** *** What a run leaves on disk *)

(** X11: Of the files it reads and rewrites, the run changes those at the paths
    of its records and no other: every other file, the subject files among
    them, is at the end what it was at the start.  (The report goes to the
    report writer and is in the log, not on this disk.) *)
Theorem run_touches_only_spec_files (result : list SpecRecord) m :
  ∃ m', forLoop result m = Some m'
        ∧ ∀ p, p ∉ specFilePath <$> result → disk m' !! p = disk m !! p.
Proof.
  destruct (forLoop_total result m) as [m' Hf]. exists m'. split; [done |].
  intros p Hp.
  apply (forLoop_preserves (λ m0, disk m0 !! p = disk m !! p) result)
    with (m := m); [| done | done].
  intros sf m0 m1 Hin HP Hstep.
  apply (processSpecFile_preserves (λ m2, disk m2 !! p = disk m !! p) sf m0 m1);
    try done.
  intros s r m2 _ HP2.
  destruct (attempt_outcomes sf s r m2)
    as [[_ ->] | [(_ & c & _ & _ & ->) | (_ & _ & ->)]]; simpl; try done.
  rewrite lookup_insert_ne; [done |].
  intros <-. apply Hp, list_elem_of_fmap. by exists sf.
Qed.

(** X12: Every path on the success list at the end of a run is the path of one
    of the records, and the file at that path then ends with a line
    terminator. *)
Theorem run_success_means_written (result : list SpecRecord)
    (d : gmap string FileData) :
  ∃ m', forLoop result (initialMachine d) = Some m'
        ∧ ∀ p, p ∈ success (processedFiles m') →
               p ∈ specFilePath <$> result
               ∧ ∃ f, disk m' !! p = Some f ∧ endsWith (content f) LF = true.
Proof.
  destruct (forLoop_total result (initialMachine d)) as [m' Hf].
  exists m'. split; [done |].
  set (P := λ m0 : Machine,
         ∀ p, p ∈ success (processedFiles m0) →
              p ∈ specFilePath <$> result
              ∧ ∃ f, disk m0 !! p = Some f ∧ endsWith (content f) LF = true).
  apply (forLoop_preserves P result) with (m := initialMachine d); [| | done].
  - intros sf m0 m1 Hin HP Hstep.
    apply (processSpecFile_preserves P sf m0 m1); try done.
    intros s r m2 _ HP2.
    destruct (attempt_outcomes sf s r m2)
      as [[_ ->] | [(_ & c & _ & _ & ->) | (_ & _ & ->)]]; try exact HP2.
    intros p Hp. simpl in Hp. apply elem_of_app in Hp as [Hp | Hp].
    + destruct (HP2 p Hp) as (Hpaths & f & Hlook & Hend). split; [done |].
      simpl. destruct (decide (specFilePath sf = p)) as [<- | Hne].
      * rewrite lookup_insert_eq. eexists. split; [done |]. apply terminated_endsWith.
      * rewrite lookup_insert_ne by done. eauto.
    + apply list_elem_of_singleton in Hp as ->. split.
      * apply list_elem_of_fmap. by exists sf.
      * simpl. rewrite lookup_insert_eq. eexists. split; [done |].
        apply terminated_endsWith.
  - intros p Hp. simpl in Hp. by apply elem_of_nil in Hp.
Qed.

(** *** What a run costs and records *)

Lemma processSpecFile_requests sf m m' :
  processSpecFile sf m = Some m' →
  requests m ≤ requests m' ≤ requests m + maxRetries.
Proof.
  intros Hp. destruct (readContents sf (disk m)) as [[s r]|message] eqn:Hread.
  - destruct (processSpecFile_run JSON_parse sendToClaudeForReview sf m s r Hread)
      as (f & o & m'' & Hp' & Hrun & _).
    rewrite Hp in Hp'. injection Hp' as <-.
    rewrite (RecordRun_requests _ _ _ _ _ _ _ Hrun).
    assert (f ≤ maxRetries) by (inversion Hrun; subst; lia).
    destruct (f <? maxRetries)%nat eqn:Hlt; [apply Nat.ltb_lt in Hlt |]; lia.
  - unfold Simplify.processSpecFile in Hp. rewrite Hread in Hp.
    injection Hp as <-. simpl. lia.
Qed.

(** X13: A run sends at most three requests per record, whatever the service
    answers. *)
Theorem run_request_budget (result : list SpecRecord) m :
  ∃ m', forLoop result m = Some m'
        ∧ requests m ≤ requests m' ≤ requests m + maxRetries * length result.
Proof.
  revert m. induction result as [|sf rest IH]; intros m.
  - exists m. split; [done | simpl; lia].
  - destruct (processSpecFile_total JSON_parse sendToClaudeForReview sf m)
      as [m1 Hp].
    cbn [Simplify.forLoop]. rewrite Hp.
    destruct (IH m1) as (m' & Hf & Hreq). exists m'. split; [done |].
    apply processSpecFile_requests in Hp.
    change (length (sf :: rest)) with (S (length rest)).
    unfold maxRetries in *. lia.
Qed.

Lemma processSpecFile_entries sf m m' :
  processSpecFile sf m = Some m' →
  entryCount (processedFiles m) + 1 ≤ entryCount (processedFiles m')
  ≤ entryCount (processedFiles m) + 2.
Proof.
  intros Hp. destruct (readContents sf (disk m)) as [[s r]|message] eqn:Hread.
  - destruct (processSpecFile_run JSON_parse sendToClaudeForReview sf m s r Hread)
      as (f & o & m'' & Hp' & Hrun & _).
    rewrite Hp in Hp'. injection Hp' as <-.
    inversion Hrun; subst; unfold entryCount; simpl; rewrite ?length_app; simpl; lia.
  - unfold Simplify.processSpecFile in Hp. rewrite Hread in Hp.
    injection Hp as <-. unfold entryCount. simpl. rewrite length_app. simpl. lia.
Qed.

(** X14: Every record leaves at least one entry on the lists of the accumulator
    and at most two: a run over [n] records ends with between [n] and
    [2 n] entries more than it started with. *)
Theorem run_entry_bounds (result : list SpecRecord) m :
  ∃ m', forLoop result m = Some m'
        ∧ entryCount (processedFiles m) + length result
          ≤ entryCount (processedFiles m')
          ≤ entryCount (processedFiles m) + 2 * length result.
Proof.
  revert m. induction result as [|sf rest IH]; intros m.
  - exists m. split; [done | simpl; lia].
  - destruct (processSpecFile_total JSON_parse sendToClaudeForReview sf m)
      as [m1 Hp].
    cbn [Simplify.forLoop]. rewrite Hp.
    destruct (IH m1) as (m' & Hf & Hcount). exists m'. split; [done |].
    apply processSpecFile_entries in Hp.
    change (length (sf :: rest)) with (S (length rest)). lia.
Qed.

Lemma reportsNumbered_quiet (e : Event) m :
  reports [e] = [] → reportsNumbered m → reportsNumbered (emit e m).
Proof.
  intros He [Hnum Hlast]. unfold reportsNumbered. simpl.
  by rewrite reports_app, He, app_nil_r.
Qed.

Lemma reportsNumbered_push m (p : ProcessedFiles) :
  entryCount p = S (entryCount (processedFiles m)) →
  reportsNumbered m → reportsNumbered (updateReport (setProcessed p m)).
Proof.
  intros Hcount [Hnum Hlast]. unfold reportsNumbered. simpl.
  rewrite reports_app. simpl. split.
  - rewrite fmap_app, Hnum, Hcount, seq_S, fmap_app. simpl. do 2 f_equal.
    unfold entryCount in *. lia.
  - rewrite last_snoc. by intros ? [= <-].
Qed.

Lemma reportsNumbered_attempt sf s r m :
  reportsNumbered m → reportsNumbered (attempt sf s r m).2.
Proof.
  intros HP.
  assert (reportsNumbered (noteRequest s r m)) as HP0.
  { destruct HP as [Hnum Hlast]. unfold reportsNumbered. simpl.
    by rewrite reports_app, app_nil_r. }
  destruct (attempt_outcomes sf s r m)
    as [[_ ->] | [(_ & c & _ & _ & ->) | (_ & _ & ->)]]; [done | |].
  - apply (reportsNumbered_push (setDisk _ (noteRequest s r m))); [| exact HP0].
    unfold entryCount. simpl. rewrite length_app. simpl. lia.
  - apply (reportsNumbered_push (noteRequest s r m)); [| exact HP0].
    unfold entryCount. simpl. rewrite length_app. simpl. lia.
Qed.

(** X15: Each snapshot handed to the report writer counts exactly one processed
    file more than the one before, starting at 1; there are as many
    snapshots as entries in the accumulator, and the last snapshot is the
    final state of the accumulator. *)
Theorem run_reports_numbered (result : list SpecRecord) (d : gmap string FileData) :
  ∃ m', forLoop result (initialMachine d) = Some m'
        ∧ totalProcessed <$> reports (log m')
          = Z.of_nat <$> seq 1 (entryCount (processedFiles m'))
        ∧ ∀ rep, last (reports (log m')) = Some rep →
                 rep = buildReport (processedFiles m').
Proof.
  destruct (forLoop_total result (initialMachine d)) as [m' Hf].
  exists m'. split; [done |].
  apply (forLoop_preserves reportsNumbered result) with (m := initialMachine d);
    [| | done].
  - intros sf m0 m1 _ HP Hstep.
    apply (processSpecFile_preserves reportsNumbered sf m0 m1); try done.
    + intros s r m2 _. apply reportsNumbered_attempt.
    + intros ms m2. by apply reportsNumbered_quiet.
    + intros e m2. apply (reportsNumbered_push m2).
      unfold entryCount. simpl. rewrite length_app. simpl. lia.
  - split; [done |]. simpl. done.
Qed.

Lemma readContents_printable sf (d : gmap string FileData) s r :
  readContents sf d = Normal (s, r) →
  requestPrintable (Request s r) = true.
Proof.
  unfold readContents.
  destruct (readFileSync d (specFilePath sf)) as [specContent|]; [| done].
  destruct (relatedFilePath sf) as [p|].
  - destruct (truthy p).
    + destruct (readFileSync d p) as [relatedContent|]; [| done].
      intros [= <- <-]. simpl. by rewrite !sanitize_allPrintable.
    + intros [= <- <-]. simpl. by rewrite sanitize_allPrintable.
  - intros [= <- <-]. simpl. by rewrite sanitize_allPrintable.
Qed.

(** X16: Nothing but printable ASCII ever goes out: every request of a run
    carries a specification content, and a related content if any, made
    of characters of [[\x20-\x7E]] only. *)
Theorem run_requests_are_sanitized (result : list SpecRecord)
    (d : gmap string FileData) :
  ∃ m', forLoop result (initialMachine d) = Some m'
        ∧ forallb requestPrintable (log m') = true.
Proof.
  destruct (forLoop_total result (initialMachine d)) as [m' Hf].
  exists m'. split; [done |].
  set (P := λ m0 : Machine, forallb requestPrintable (log m0) = true).
  assert (∀ e m0, requestPrintable e = true → P m0 → P (emit e m0)) as Hemit.
  { intros e m0 He HP. unfold P. simpl. rewrite forallb_app, HP. simpl.
    by rewrite He. }
  apply (forLoop_preserves P result) with (m := initialMachine d); [| done | done].
  intros sf m0 m1 _ HP Hstep.
  apply (processSpecFile_preserves P sf m0 m1); try done.
  - intros s r m2 Hread HP2.
    assert (P (noteRequest s r m2)) as HP3.
    { apply (Hemit (Request s r)
               (mkMachine (disk m2) (S (requests m2)) (log m2) (processedFiles m2)));
        [by eapply readContents_printable | exact HP2]. }
    destruct (attempt_outcomes sf s r m2)
      as [[_ ->] | [(_ & c & _ & _ & ->) | (_ & _ & ->)]]; [done | |].
    + by apply (Hemit (ReportWritten _)
                  (pushSuccess _ (setDisk _ (noteRequest s r m2)))).
    + by apply (Hemit (ReportWritten _) (pushSkipped _ (noteRequest s r m2))).
  - intros ms m2 HP2. by apply Hemit.
  - intros e m2 HP2. by apply (Hemit (ReportWritten _) (pushError e m2)).
Qed.

(** *** Replies that are neither content nor a refusal *)

Lemma processSpecFile_exhausted sf m s r :
  readContents sf (disk m) = Normal (s, r) →
  (∀ i, i < maxRetries →
        truthy_opt (attempt sf s r (afterFailures s r i m)).1 = false) →
  processSpecFile sf m
  = Some (updateReport
            (pushError (exhausted sf)
               (updateReport
                  (pushError (exhausted sf) (afterFailures s r maxRetries m))))).
Proof.
  intros Hread Hfail.
  destruct (processSpecFile_run JSON_parse sendToClaudeForReview sf m s r Hread)
    as (f & o & m' & Hp & Hrun & _ & Hlast).
  inversion Hrun as [f' d' Hf | f' Hf |]; subst; try exact Hp;
    destruct (Hlast Hf) as (resp & Ha & Ht);
    specialize (Hfail _ Hf); rewrite Ha in Hfail; simpl in Hfail; congruence.
Qed.

(** X17: A reply that parses to [null], or whose [newSpecContent] is truthy
    without being a string (a number, [true], an array, an object), counts
    as a failed attempt: three of them in a row end the record as failed,
    after three requests and with the disk untouched. *)
Theorem unusable_reply_is_retried sf m s r :
  readContents sf (disk m) = Normal (s, r) →
  (∀ i, i < maxRetries →
        offersUnusable JSON_parse (sendToClaudeForReview (requests m + i) s r) = true) →
  ∃ m',
    processSpecFile sf m = Some m'
    ∧ RecordRun sf s r m maxRetries (Failed exhaustedMessage) m'
    ∧ requests m' = requests m + 3
    ∧ disk m' = disk m
    ∧ success (processedFiles m') = success (processedFiles m)
    ∧ skipped (processedFiles m') = skipped (processedFiles m)
    ∧ delays (log m') = delays (log m) ++ [1000; 2000]%Z.
Proof.
  intros Hread Hbad. eexists. split.
  { apply processSpecFile_exhausted; [done |]. intros i Hi.
    apply attempt_offers_unusable. rewrite requests_afterFailures. by apply Hbad. }
  split; [apply RunFailed |]. simpl. repeat split; try done.
  rewrite !delays_app. simpl. by rewrite !app_nil_r.
Qed.

(** X18: A specification file that cannot be written turns every reply with
    content into a failed attempt: the request is sent again after the
    backoff, and after three such replies the record is failed, its file
    unchanged. *)
Theorem write_failure_is_retried sf m s r f :
  readContents sf (disk m) = Normal (s, r) →
  disk m !! specFilePath sf = Some f →
  writable f = false →
  (∀ i, i < maxRetries →
        offersContent JSON_parse (sendToClaudeForReview (requests m + i) s r) = true) →
  ∃ m',
    processSpecFile sf m = Some m'
    ∧ RecordRun sf s r m maxRetries (Failed exhaustedMessage) m'
    ∧ requests m' = requests m + 3
    ∧ disk m' !! specFilePath sf = Some f
    ∧ success (processedFiles m') = success (processedFiles m)
    ∧ error (processedFiles m')
      = error (processedFiles m) ++ [exhausted sf; exhausted sf].
Proof.
  intros Hread Hfile Hlocked Hgood. eexists. split.
  { apply processSpecFile_exhausted; [done |]. intros i Hi.
    apply (attempt_write_denied sf s r (afterFailures s r i m) f); [| done | done].
    rewrite requests_afterFailures. by apply Hgood. }
  split; [apply RunFailed |]. simpl. repeat split; try done.
  by rewrite <- app_assoc.
Qed.

(** X19: A reply that parses to anything but [null] and whose [newSpecContent]
    is falsy - absent (also on a number, a string or an array), [null],
    [false], [0] or the empty string - ends the record as skipped, without
    a further request and without touching the disk. *)
Theorem falsy_content_is_skipped sf m s r k :
  readContents sf (disk m) = Normal (s, r) →
  k < maxRetries →
  (∀ i, i < k →
        reviewFails JSON_parse (sendToClaudeForReview (requests m + i) s r) = true) →
  offersNothing JSON_parse (sendToClaudeForReview (requests m + k) s r) = true →
  ∃ m',
    processSpecFile sf m = Some m'
    ∧ RecordRun sf s r m k Skipped m'
    ∧ skipped (processedFiles m') = skipped (processedFiles m) ++ [specFilePath sf]
    ∧ success (processedFiles m') = success (processedFiles m)
    ∧ error (processedFiles m') = error (processedFiles m)
    ∧ disk m' = disk m
    ∧ requests m' = requests m + k + 1.
Proof.
  intros Hread Hk Hfail Hnothing.
  destruct (attempt_offers_nothing sf s r (afterFailures s r k m))
    as (resp & Ha & Ht).
  { by rewrite requests_afterFailures. }
  eexists. split.
  { eapply processSpecFile_after_failures; eauto. }
  split; [by apply RunSkipped |]. simpl. repeat split; try done. lia.
Qed.

(** X20: A record whose specification file, or whose related file, cannot be
    read is failed at once with the message of the read error: one error
    entry, one report, no request and no delay. *)
Theorem read_failure_is_failed sf m :
  (disk m !! specFilePath sf = None
   ∨ ∃ p, is_Some (disk m !! specFilePath sf)
          ∧ relatedFilePath sf = Some p ∧ truthy p = true ∧ disk m !! p = None) →
  ∃ m' missing,
    processSpecFile sf m = Some m'
    ∧ (missing = specFilePath sf ∨ relatedFilePath sf = Some missing)
    ∧ error (processedFiles m')
      = error (processedFiles m)
        ++ [mkErrorEntry (specFileName sf)
              ("ENOENT: no such file or directory, open '" +:+ missing +:+ "'")]
    ∧ success (processedFiles m') = success (processedFiles m)
    ∧ skipped (processedFiles m') = skipped (processedFiles m)
    ∧ requests m' = requests m
    ∧ disk m' = disk m
    ∧ log m' = log m ++ [ReportWritten (buildReport (processedFiles m'))].
Proof.
  intros [Hspec | (p & [f Hf] & Hrel & Hp & Hmissing)].
  - eexists _, (specFilePath sf). unfold Simplify.processSpecFile, readContents,
      readFileSync. rewrite Hspec. split; [reflexivity |]. simpl.
    repeat split; try done. by left.
  - eexists _, p. unfold Simplify.processSpecFile, readContents, readFileSync.
    rewrite Hf, Hrel, Hp, Hmissing. split; [reflexivity |]. simpl.
    repeat split; try done. by right.
Qed.

End RunFacts.

Lemma unusable_reply_is_retried_witness :
  ∃ m',
    Simplify.processSpecFile Probe.parse
      (Sample.scripted [Some "null"; Some Probe.numberReply; Some "null"])
      Sample.oneSpecRecord (Simplify.initialMachine Sample.oneSpecDisk) = Some m'
    ∧ Simplify.requests m' = 3
    ∧ Simplify.disk m' = Sample.oneSpecDisk.
Proof.
  destruct (unusable_reply_is_retried Probe.parse
              (Sample.scripted [Some "null"; Some Probe.numberReply; Some "null"])
              Sample.oneSpecRecord (Simplify.initialMachine Sample.oneSpecDisk)
              "test('a', () => {});" None)
    as (m' & Hp & _ & Hreq & Hdisk & _).
  - vm_compute. reflexivity.
  - intros i Hi. destruct i as [|[|[|i]]]; [reflexivity .. |].
    unfold maxRetries in Hi. lia.
  - exists m'. split; [exact Hp |]. split; [exact Hreq | exact Hdisk].
Defined.

Lemma write_failure_is_retried_witness :
  ∃ m',
    Simplify.processSpecFile Sample.parse
      (λ _ _ _, Some (Sample.contentReply "X")) Sample.oneSpecRecord
      (Simplify.initialMachine Probe.lockedDisk) = Some m'
    ∧ Simplify.requests m' = 3
    ∧ Simplify.disk m' !! "/p/a.spec.js"
      = Some (mkFileData "test('a', () => {});" false).
Proof.
  destruct (write_failure_is_retried Sample.parse
              (λ _ _ _, Some (Sample.contentReply "X")) Sample.oneSpecRecord
              (Simplify.initialMachine Probe.lockedDisk)
              "test('a', () => {});" None
              (mkFileData "test('a', () => {});" false))
    as (m' & Hp & _ & Hreq & Hdisk & _).
  - vm_compute. reflexivity.
  - vm_compute. reflexivity.
  - reflexivity.
  - intros i _. reflexivity.
  - exists m'. split; [exact Hp |]. split; [exact Hreq | exact Hdisk].
Defined.

Lemma falsy_content_is_skipped_witness :
  ∃ m',
    Simplify.processSpecFile Probe.parse
      (Sample.scripted [None; Some "[1]"]) Sample.oneSpecRecord
      (Simplify.initialMachine Sample.oneSpecDisk) = Some m'
    ∧ Simplify.skipped (Simplify.processedFiles m') = ["/p/a.spec.js"]
    ∧ Simplify.requests m' = 2.
Proof.
  destruct (falsy_content_is_skipped Probe.parse
              (Sample.scripted [None; Some "[1]"]) Sample.oneSpecRecord
              (Simplify.initialMachine Sample.oneSpecDisk)
              "test('a', () => {});" None 1)
    as (m' & Hp & _ & Hskip & _ & _ & _ & Hreq).
  - vm_compute. reflexivity.
  - unfold maxRetries. lia.
  - intros i Hi. destruct i as [|i]; [reflexivity | lia].
  - vm_compute. reflexivity.
  - exists m'. split; [exact Hp |]. split; [exact Hskip | exact Hreq].
Defined.

Lemma read_failure_is_failed_witness :
  ∃ m',
    Simplify.processSpecFile Sample.parse Sample.silent Probe.staleRecord
      (Simplify.initialMachine Sample.oneSpecDisk) = Some m'
    ∧ Simplify.error (Simplify.processedFiles m')
      = [mkErrorEntry "a.spec.js"
           "ENOENT: no such file or directory, open '/p/a.js'"]
    ∧ Simplify.requests m' = 0.
Proof.
  destruct (read_failure_is_failed Sample.parse Sample.silent Probe.staleRecord
              (Simplify.initialMachine Sample.oneSpecDisk))
    as (m' & missing & Hp & Hwhich & Herr & _ & _ & Hreq & _).
  - right. exists "/p/a.js". split; [| split; [reflexivity | split; reflexivity]].
    exists (mkFileData "test('a', () => {});" true). vm_compute. reflexivity.
  - exists m'. split; [exact Hp |]. split; [| exact Hreq].
    vm_compute in Hp. injection Hp as <-. reflexivity.
Defined.

(** ** The run of the legacy orchestrator *)

Section LegacyRun.

Variable JSON_parse : string → option Json.
Variable sendToClaudeForReview : nat → string → option string → option string.

Abbreviation legacyAttempt := (Legacy.attempt JSON_parse sendToClaudeForReview).
Abbreviation legacyWhile := (Legacy.whileLoop JSON_parse sendToClaudeForReview).
Abbreviation legacyProcess := (Legacy.processSpecFile JSON_parse sendToClaudeForReview).
Abbreviation legacyFor := (Legacy.forLoop JSON_parse sendToClaudeForReview).

Lemma legacy_whileLoop_unfold fuel sf s r retries resp m :
  legacyWhile (S fuel) sf s r retries resp m
  = if (retries <? maxRetries)%nat && negb (truthy_opt resp) then
      let '(resp1, m1) := legacyAttempt sf s r m in
      if negb (truthy_opt resp1) then
        if (S retries <? maxRetries)%nat then
          legacyWhile fuel sf s r (S retries) resp1
            (Legacy.emit (Legacy.Delay (1000 * Z.of_nat (S retries))) m1)
        else
          legacyWhile fuel sf s r (S retries) resp1
            (Legacy.pushError (mkErrorEntry (specFileName sf) exhaustedMessage) m1)
      else legacyWhile fuel sf s r retries resp1 m1
    else Some (retries, resp, m).
Proof. reflexivity. Qed.

Lemma legacy_whileLoop_exit fuel sf s r retries resp m :
  (retries <? maxRetries)%nat && negb (truthy_opt resp) = false →
  legacyWhile fuel sf s r retries resp m = Some (retries, resp, m).
Proof. intros H. destruct fuel; simpl; by rewrite H. Qed.

Lemma legacy_whileLoop_done fuel sf s r retries resp m resp1 m1 :
  truthy_opt resp = false → retries < maxRetries →
  legacyAttempt sf s r m = (resp1, m1) → truthy_opt resp1 = true →
  legacyWhile (S fuel) sf s r retries resp m = Some (retries, resp1, m1).
Proof.
  intros Hr Hlt Ha Hf. rewrite legacy_whileLoop_unfold, Ha, Hr, Hf. simpl.
  assert ((retries <? maxRetries)%nat = true) as -> by (by apply Nat.ltb_lt).
  simpl. apply legacy_whileLoop_exit. rewrite Hf. by rewrite andb_false_r.
Qed.

(** The legacy loop ends within its budget, and keeps every property that
    each of its steps keeps. *)
Lemma legacy_whileLoop_preserves (P : Legacy.Machine → Prop) sf s r :
  (∀ m0, P m0 → P (legacyAttempt sf s r m0).2) →
  (∀ ms m0, P m0 → P (Legacy.emit (Legacy.Delay ms) m0)) →
  (∀ e m0, P m0 → P (Legacy.pushError e m0)) →
  ∀ fuel retries resp m,
    maxRetries - retries ≤ fuel → P m →
    ∃ res, legacyWhile fuel sf s r retries resp m = Some res ∧ P res.2.
Proof.
  intros Hatt Hdelay Herr.
  induction fuel as [|fuel IH]; intros retries resp m Hfuel HP.
  - destruct ((retries <? maxRetries)%nat && negb (truthy_opt resp)) eqn:Hc.
    + apply andb_prop in Hc as [Hlt%Nat.ltb_lt _]. lia.
    + rewrite legacy_whileLoop_exit by done. eauto.
  - rewrite legacy_whileLoop_unfold.
    destruct ((retries <? maxRetries)%nat && negb (truthy_opt resp)) eqn:Hc;
      [| eauto].
    pose proof (Hatt m HP) as HP1.
    destruct (Legacy.attempt JSON_parse sendToClaudeForReview sf s r m)
      as [resp1 m1].
    simpl in HP1. destruct (negb (truthy_opt resp1)) eqn:Hf.
    + destruct (S retries <? maxRetries)%nat; apply IH; try lia; eauto.
    + rewrite legacy_whileLoop_exit by (by rewrite Hf, andb_false_r). eauto.
Qed.

Lemma legacy_processSpecFile_preserves (P : Legacy.Machine → Prop) sf m :
  (∀ s r m0, Legacy.readContents sf (Legacy.disk m) = Normal (s, r) →
             P m0 → P (legacyAttempt sf s r m0).2) →
  (∀ ms m0, P m0 → P (Legacy.emit (Legacy.Delay ms) m0)) →
  (∀ e m0, P m0 → P (Legacy.pushError e m0)) →
  P m → ∃ m', legacyProcess sf m = Some m' ∧ P m'.
Proof.
  intros Hatt Hdelay Herr HP. unfold Legacy.processSpecFile, Legacy.catchRecord.
  destruct (Legacy.readContents sf (Legacy.disk m)) as [[s r]|message] eqn:Hread;
    [| eauto].
  destruct (legacy_whileLoop_preserves P sf s r (λ m0, Hatt s r m0 eq_refl)
              Hdelay Herr maxRetries 0 None m ltac:(lia) HP)
    as ([[n resp] m1] & -> & HP1).
  simpl in HP1. destruct (negb (truthy_opt resp)); eauto.
Qed.

Lemma legacy_forLoop_preserves (P : Legacy.Machine → Prop) result :
  (∀ sf s r m m0, Legacy.readContents sf (Legacy.disk m) = Normal (s, r) →
                  P m0 → P (legacyAttempt sf s r m0).2) →
  (∀ ms m0, P m0 → P (Legacy.emit (Legacy.Delay ms) m0)) →
  (∀ e m0, P m0 → P (Legacy.pushError e m0)) →
  ∀ m, P m → ∃ m', legacyFor result m = Some m' ∧ P m'.
Proof.
  intros Hatt Hdelay Herr.
  induction result as [|sf rest IH]; intros m HP; simpl; [eauto |].
  destruct (legacy_processSpecFile_preserves P sf m) as (m1 & -> & HP1); eauto.
Qed.

Lemma legacy_attempt_log sf s r m :
  Legacy.log (legacyAttempt sf s r m).2 = Legacy.log m ++ [Legacy.Request s r].
Proof.
  unfold Legacy.attempt.
  destruct (sendToClaudeForReview (Legacy.requests m) s r) as [text|]; [| done].
  destruct (truthy text); [| done].
  destruct (JSON_parse text) as [parsed|]; [| done].
  destruct (newSpecContentOf parsed) as [v|]; [| done].
  destruct (truthyValue v); [| done].
  destruct v as [[| | |c| |]|]; try done.
  by destruct (writeFileSync _ _ _).
Qed.

Lemma legacy_readContents_unrelated sf (d : gmap string FileData) s r :
  Legacy.readContents sf d = Normal (s, r) → r = None.
Proof.
  unfold Legacy.readContents.
  destruct (readFileSync d (specFilePath sf)); [| done].
  destruct (relatedFilePath sf) as [p|]; [| by intros [= _ <-]].
  destruct (truthy p); [| by intros [= _ <-]].
  by destruct (readFileSync d p).
Qed.

(** X21: The legacy run always completes and writes its report exactly once, as
    its last act; the report is the final accumulator, with
    [totalProcessed = successfullyProcessed + errors].  Until then nothing
    is persisted, however many records were processed. *)
Theorem legacy_single_final_report
    (path_join : string → string → string) (path_dirname : string → string)
    (existsSync : string → bool)
    (startDir : string) (items : list (string * Dirent)) (d : gmap string FileData) :
  ∃ m' before,
    Legacy.main JSON_parse sendToClaudeForReview path_join path_dirname existsSync
      startDir items d = Some m'
    ∧ Legacy.log m'
      = before ++ [Legacy.ReportWritten (Legacy.buildReport (Legacy.processedFiles m'))]
    ∧ forallb legacyQuiet before = true
    ∧ Legacy.totalProcessed (Legacy.buildReport (Legacy.processedFiles m'))
      = (Z.of_nat (length (Legacy.success (Legacy.processedFiles m')))
         + Z.of_nat (length (Legacy.error (Legacy.processedFiles m'))))%Z.
Proof.
  unfold Legacy.main.
  set (P := λ m0 : Legacy.Machine, forallb legacyQuiet (Legacy.log m0) = true).
  destruct (legacy_forLoop_preserves P
              (findSpecFilesAndRelated path_join path_dirname existsSync startDir items [])
              ) with (m := Legacy.initialMachine d) as (m1 & -> & HP1).
  - intros sf s r m m0 _ HP. unfold P. rewrite legacy_attempt_log, forallb_app.
    by rewrite HP.
  - intros ms m0 HP. unfold P. simpl. rewrite forallb_app. by rewrite HP.
  - intros e m0 HP. exact HP.
  - done.
  - eexists _, (Legacy.log m1). split; [reflexivity |]. simpl.
    split; [done |]. split; [exact HP1 | done].
Qed.

(** X22: The legacy orchestrator never sends the content of a related file:
    every request of a run goes out without it. *)
Theorem legacy_never_sends_related_content (result : list SpecRecord)
    (d : gmap string FileData) :
  ∃ m', legacyFor result (Legacy.initialMachine d) = Some m'
        ∧ forallb legacyUnrelated (Legacy.log m') = true.
Proof.
  set (P := λ m0 : Legacy.Machine, forallb legacyUnrelated (Legacy.log m0) = true).
  apply (legacy_forLoop_preserves P result); try done.
  - intros sf s r m m0 Hread HP. unfold P.
    rewrite legacy_attempt_log, forallb_app, HP.
    apply legacy_readContents_unrelated in Hread as ->. done.
  - intros ms m0 HP. unfold P. simpl. rewrite forallb_app. by rewrite HP.
Qed.

(** X23: The legacy orchestrator writes the content of an accepted reply as it
    was received: no line terminator is added, so a content without one is
    on disk without one. *)
Theorem legacy_writes_content_as_received sf (m : Legacy.Machine)
    specContent text parsed c d' :
  truthy_opt (relatedFilePath sf) = false →
  readFileSync (Legacy.disk m) (specFilePath sf) = Normal specContent →
  sendToClaudeForReview (Legacy.requests m) (sanitize specContent) None = Some text →
  truthy text = true →
  JSON_parse text = Some parsed →
  newSpecContentOf parsed = Normal (Some (JStr c)) →
  truthy c = true →
  writeFileSync (Legacy.disk m) (specFilePath sf) c = Normal d' →
  ∃ m',
    legacyProcess sf m = Some m'
    ∧ content <$> (Legacy.disk m' !! specFilePath sf) = Some c
    ∧ Legacy.success (Legacy.processedFiles m')
      = Legacy.success (Legacy.processedFiles m) ++ [specFilePath sf]
    ∧ Legacy.error (Legacy.processedFiles m') = Legacy.error (Legacy.processedFiles m)
    ∧ Legacy.requests m' = S (Legacy.requests m)
    ∧ Legacy.log m' = Legacy.log m ++ [Legacy.Request (sanitize specContent) None].
Proof.
  intros Hrel Hread Hsend Ht Hparse Hnew Hc Hwrite.
  assert (Legacy.readContents sf (Legacy.disk m) = Normal (sanitize specContent, None))
    as Hcontents.
  { unfold Legacy.readContents. rewrite Hread.
    destruct (relatedFilePath sf) as [p|]; [| done]. simpl in Hrel. by rewrite Hrel. }
  assert (legacyAttempt sf (sanitize specContent) None m
          = (Some text,
             Legacy.pushSuccess (specFilePath sf)
               (Legacy.setDisk d' (Legacy.noteRequest (sanitize specContent) None m))))
    as Ha.
  { unfold Legacy.attempt. rewrite Hsend, Ht, Hparse, Hnew. simpl. rewrite Hc.
    simpl in *. by rewrite Hwrite. }
  eexists. unfold Legacy.processSpecFile. rewrite Hcontents.
  unfold maxRetries at 1.
  rewrite (legacy_whileLoop_done 2 sf _ _ 0 None m _ _ eq_refl
             ltac:(unfold maxRetries; lia) Ha)
    by (by simpl; rewrite Ht).
  simpl. rewrite Ht. simpl. split; [reflexivity |]. simpl.
  split; [by apply writeFileSync_lookup in Hwrite |]. done.
Qed.

End LegacyRun.

Lemma legacy_writes_content_as_received_witness :
  ∃ m',
    Legacy.processSpecFile Sample.parse
      (Sample.scripted [Some (Sample.contentReply "X")]) Sample.oneSpecRecord
      (Legacy.initialMachine Sample.oneSpecDisk) = Some m'
    ∧ content <$> (Legacy.disk m' !! "/p/a.spec.js") = Some "X".
Proof.
  destruct (legacy_writes_content_as_received Sample.parse
              (Sample.scripted [Some (Sample.contentReply "X")])
              Sample.oneSpecRecord (Legacy.initialMachine Sample.oneSpecDisk)
              "test('a', () => {});" (Sample.contentReply "X")
              (JObj [("newSpecContent", JStr "X")]) "X"
              (<["/p/a.spec.js" := mkFileData "X" true]> Sample.oneSpecDisk))
    as (m' & Hp & Hdisk & _).
  - reflexivity.
  - vm_compute. reflexivity.
  - reflexivity.
  - reflexivity.
  - vm_compute. reflexivity.
  - reflexivity.
  - reflexivity.
  - vm_compute. reflexivity.
  - exists m'. split; [exact Hp | exact Hdisk].
Defined.
